(** * openclaw-mcp-bridge: name resolver, connection pool and tool router

    A shallow embedding of the bridge plugin and of its discovery script.
    Two variants of the plugin are modelled side by side:

    - the cache-driven plugin (tools registered from [.mcp-tools-cache.json],
      connections opened lazily through [getClient]), in [Module Cached];
    - the eager plugin (every enabled server connected at service start,
      tools registered from the live [tools/list] answer), in [Module Eager].

    The discovery script shares [resolveEnvVars] with both plugins.

    JavaScript strings are modelled as [string]: one [ascii] stands for one
    code unit.  Objects used as dictionaries ([servers], [process.env]) and
    the two [Map]s of the pool are finite maps. *)

From Stdlib Require Import Ascii String.
From stdpp Require Import gmap strings list pretty.
From Equations Require Import Equations.

Set Warnings "-register-all".

(** stdpp keeps [String.append] folded; the proofs below compute with it. *)
Local Arguments String.append !_ _ / : simpl nomatch.

(** ** Characters *)

Definition code (c : ascii) : nat := nat_of_ascii c.

(** The class [[a-zA-Z0-9_]] of the first [replace] of [sanitize]. *)
Definition is_word_char (c : ascii) : bool :=
  let n := code c in
  ((97 <=? n) && (n <=? 122)) || ((65 <=? n) && (n <=? 90))
  || ((48 <=? n) && (n <=? 57)) || (n =? 95).

Definition is_underscore (c : ascii) : bool := code c =? 95.

(** [toLowerCase] on one code unit.  [sanitize] lowers a string only after
    every unit outside [[a-zA-Z0-9_]] has been replaced, so the letters
    [A]-[Z] are the only units the call can change. *)
Definition lower_char (c : ascii) : ascii :=
  let n := code c in
  if (65 <=? n) && (n <=? 90) then ascii_of_nat (n + 32) else c.

(** ** The four passes of [sanitize] *)

(** [s.replace(/[^a-zA-Z0-9_]/g, "_")] *)
Fixpoint replace_non_word (s : string) : string :=
  match s with
  | EmptyString => EmptyString
  | String c t => String (if is_word_char c then c else "_"%char) (replace_non_word t)
  end.

Definition starts_with_underscore (s : string) : bool :=
  match s with
  | String c _ => is_underscore c
  | EmptyString => false
  end.

(** [s.replace(/_+/g, "_")]: of every maximal run of underscores only the
    last one is kept. *)
Fixpoint collapse_underscores (s : string) : string :=
  match s with
  | EmptyString => EmptyString
  | String c t =>
      if is_underscore c && starts_with_underscore t
      then collapse_underscores t
      else String c (collapse_underscores t)
  end.

(** [s.replace(/^_|_$/g, "")] removes the match of [^_] at index 0, if any,
    and then the match of [_$] at a later index, if any. *)
Definition strip_leading (s : string) : string :=
  match s with
  | String c t => if is_underscore c then t else s
  | EmptyString => EmptyString
  end.

Fixpoint strip_trailing (s : string) : string :=
  match s with
  | EmptyString => EmptyString
  | String c EmptyString => if is_underscore c then EmptyString else s
  | String c t => String c (strip_trailing t)
  end.

Definition strip_ends (s : string) : string := strip_trailing (strip_leading s).

(** [s.toLowerCase()] *)
Fixpoint toLowerCase (s : string) : string :=
  match s with
  | EmptyString => EmptyString
  | String c t => String (lower_char c) (toLowerCase t)
  end.

(** The local arrow function [sanitize] of [sanitizeToolName]. *)
Definition sanitize (s : string) : string :=
  toLowerCase (strip_ends (collapse_underscores (replace_non_word s))).

(** [sanitizeToolName(serverName, toolName, prefix)]; the two plugin
    variants have the same body (a conditional expression in one, an [if]
    in the other). *)
Definition sanitizeToolName (serverName toolName : string) (prefix : bool) : string :=
  if prefix
  then sanitize serverName +:+ "_" +:+ sanitize toolName
  else sanitize toolName.

Example sanitize_linear : sanitize "Linear API" = "linear_api".
Proof. reflexivity. Qed.

Example sanitize_edges : sanitize "__a--b__" = "a_b".
Proof. reflexivity. Qed.

Example sanitize_underscores : sanitize "___" = EmptyString.
Proof. reflexivity. Qed.

(** ** Environment placeholders *)

Definition is_close_brace (c : ascii) : bool := code c =? 125.

(** The capture group [([^}]+)] and the [\}] after it: the run of units up
    to the first closing brace, and the text behind that brace. *)
Fixpoint until_brace (s : string) : option (string * string) :=
  match s with
  | EmptyString => None
  | String c t =>
      if is_close_brace c then Some (EmptyString, t)
      else match until_brace t with
           | Some (name, rest) => Some (String c name, rest)
           | None => None
           end
  end.

(** A match of [/\$\{([^}]+)\}/] that starts at the head of [s]: the
    captured name (never empty) and the text behind the match. *)
Definition match_placeholder (s : string) : option (string * string) :=
  match s with
  | String "$" (String "{" t) =>
      match until_brace t with
      | Some (String c name, rest) => Some (String c name, rest)
      | _ => None
      end
  | _ => None
  end.

Lemma until_brace_shorter s name rest :
  until_brace s = Some (name, rest) → String.length rest < String.length s.
Proof.
  revert name rest. induction s as [|c t IH]; intros name rest; simpl; [done|].
  destruct (is_close_brace c).
  - intros [= <- <-]. lia.
  - destruct (until_brace t) as [[n r]|] eqn:E; [|done].
    intros [= <- <-]. specialize (IH _ _ eq_refl). lia.
Qed.

Lemma match_placeholder_shorter s name rest :
  match_placeholder s = Some (name, rest) → String.length rest < String.length s.
Proof.
  unfold match_placeholder.
  destruct s as [|a [|b t]]; try done.
  - by destruct a as [[] [] [] [] [] [] [] []].
  - destruct a as [[] [] [] [] [] [] [] []]; try done.
    destruct b as [[] [] [] [] [] [] [] []]; try done.
    destruct (until_brace t) as [[[|c n] r]|] eqn:E; try done.
    intros [= <- <-]. apply until_brace_shorter in E. simpl. lia.
Qed.

Definition inspect {A} (a : A) : {b : A | a = b} := exist _ a eq_refl.

(** [process.env[varName] ?? ""] *)
Definition env_value (env : gmap string string) (varName : string) : string :=
  default EmptyString (env !! varName).

(** [value.replace(/\$\{([^}]+)\}/g, (_match, varName) => process.env[varName] ?? "")]:
    the scan goes left to right, a match is replaced by the callback's
    result and the scan goes on behind the match. *)
Equations? resolveEnvVars (env : gmap string string) (value : string) : string
  by wf (String.length value) lt :=
resolveEnvVars env EmptyString := EmptyString;
resolveEnvVars env (String c t) with inspect (match_placeholder (String c t)) := {
  | exist _ (Some (varName, rest)) _ => env_value env varName +:+ resolveEnvVars env rest
  | exist _ None _ => String c (resolveEnvVars env t) }.
Proof.
  pose proof (match_placeholder_shorter (String c t) varName rest e) as Hlt.
  simpl in Hlt. lia.
Qed.

Example resolve_header :
  resolveEnvVars {[ "LINEAR_API_KEY" := "k3y" ]} "Authorization:Bearer ${LINEAR_API_KEY}"
  = "Authorization:Bearer k3y".
Proof. reflexivity. Qed.

Example resolve_unset : resolveEnvVars ∅ "a${X}b${}c${d" = "ab${}c${d".
Proof. reflexivity. Qed.

(** The name runs up to the first closing brace, whatever it contains. *)
Example resolve_nested :
  resolveEnvVars {[ "b" := "B"; "a${b" := "AB" ]} "x${a${b}}y" = "xAB}y".
Proof. reflexivity. Qed.

(** ** Shapes of strings met between the passes of [sanitize] *)

Fixpoint all_chars (P : ascii → bool) (s : string) : bool :=
  match s with
  | EmptyString => true
  | String c t => P c && all_chars P t
  end.

(** No two underscores side by side. *)
Fixpoint no_run (s : string) : bool :=
  match s with
  | EmptyString => true
  | String c t => negb (is_underscore c && starts_with_underscore t) && no_run t
  end.

Fixpoint ends_with_underscore (s : string) : bool :=
  match s with
  | EmptyString => false
  | String c EmptyString => is_underscore c
  | String _ t => ends_with_underscore t
  end.

Definition is_lower_word_char (c : ascii) : bool :=
  is_word_char c && negb ((65 <=? code c) && (code c <=? 90)).

(** What [sanitize] returns: lower-case letters, digits and single
    underscores, none of them at either end. *)
Definition clean (s : string) : bool :=
  all_chars is_lower_word_char s && no_run s
  && negb (starts_with_underscore s) && negb (ends_with_underscore s).

Ltac by_cases_on_char c :=
  destruct c as [[] [] [] [] [] [] [] []]; vm_compute; try done.

Lemma is_underscore_eq c : is_underscore c = true → c = "_"%char.
Proof. by_cases_on_char c. Qed.

Lemma underscore_is_word c : is_underscore c = true → is_word_char c = true.
Proof. by_cases_on_char c. Qed.

Lemma lower_char_underscore c : is_underscore (lower_char c) = is_underscore c.
Proof. by_cases_on_char c. Qed.

Lemma lower_char_word c : is_word_char c = true → is_lower_word_char (lower_char c) = true.
Proof. by_cases_on_char c. Qed.

Lemma lower_char_fixed c : is_lower_word_char c = true → lower_char c = c.
Proof. by_cases_on_char c. Qed.

Lemma lower_word_is_word c : is_lower_word_char c = true → is_word_char c = true.
Proof. by_cases_on_char c. Qed.

Lemma all_chars_impl (P Q : ascii → bool) s :
  (∀ c, P c = true → Q c = true) → all_chars P s = true → all_chars Q s = true.
Proof.
  intros HPQ. induction s as [|c t IH]; simpl; [done|].
  rewrite !andb_true_iff. intros [Hc Ht]. auto.
Qed.

(** *** First pass *)

Lemma replace_non_word_word s : all_chars is_word_char (replace_non_word s) = true.
Proof.
  induction s as [|c t IH]; simpl; [done|].
  rewrite IH, andb_true_r. by destruct (is_word_char c) eqn:E.
Qed.

Lemma replace_non_word_fixed s :
  all_chars is_word_char s = true → replace_non_word s = s.
Proof.
  induction s as [|c t IH]; simpl; [done|].
  rewrite andb_true_iff. intros [-> Ht]. by rewrite IH.
Qed.

Lemma replace_non_word_all_underscores s :
  all_chars (λ c, negb (is_word_char c)) s = true →
  all_chars is_underscore (replace_non_word s) = true.
Proof.
  induction s as [|c t IH]; simpl; [done|].
  rewrite andb_true_iff, negb_true_iff. intros [-> Ht]. by rewrite IH.
Qed.

(** *** Second pass *)

Lemma collapse_starts s :
  starts_with_underscore (collapse_underscores s) = starts_with_underscore s.
Proof.
  induction s as [|c t IH]; simpl; [done|].
  destruct (is_underscore c) eqn:Ec; simpl.
  - destruct (starts_with_underscore t) eqn:Et; simpl; [by rewrite IH | done].
  - done.
Qed.

Lemma collapse_no_run s : no_run (collapse_underscores s) = true.
Proof.
  induction s as [|c t IH]; simpl; [done|].
  destruct (is_underscore c && starts_with_underscore t) eqn:E; [done|].
  simpl. by rewrite collapse_starts, E, IH.
Qed.

Lemma collapse_all_chars P s :
  all_chars P s = true → all_chars P (collapse_underscores s) = true.
Proof.
  induction s as [|c t IH]; simpl; [done|].
  rewrite andb_true_iff. intros [Hc Ht].
  destruct (is_underscore c && starts_with_underscore t); simpl; auto.
  by rewrite Hc, IH.
Qed.

Lemma collapse_fixed s : no_run s = true → collapse_underscores s = s.
Proof.
  induction s as [|c t IH]; simpl; [done|].
  rewrite andb_true_iff, negb_true_iff. intros [-> Ht]. by rewrite IH.
Qed.

Lemma collapse_all_underscores s :
  all_chars is_underscore s = true →
  collapse_underscores s = match s with EmptyString => EmptyString | _ => "_" end.
Proof.
  induction s as [|c t IH]; simpl; [done|].
  rewrite andb_true_iff. intros [Hc Ht]. rewrite Hc. simpl.
  destruct t as [|d u].
  - simpl. by rewrite (is_underscore_eq c Hc).
  - specialize (IH Ht). simpl in Ht. apply andb_true_iff in Ht as [Hd _].
    simpl starts_with_underscore. by rewrite Hd.
Qed.

(** *** Third pass *)

Lemma strip_trailing_starts s :
  starts_with_underscore (strip_trailing s) = true → starts_with_underscore s = true.
Proof.
  destruct s as [|c [|d u]]; simpl; try done.
  destruct (is_underscore c) eqn:E; simpl; congruence.
Qed.

Lemma strip_trailing_all_chars P s :
  all_chars P s = true → all_chars P (strip_trailing s) = true.
Proof.
  induction s as [|c t IH]; [done|].
  intros H. simpl in H. apply andb_true_iff in H as [Hc Ht].
  destruct t as [|d u].
  - simpl. destruct (is_underscore c); simpl; [done | by rewrite Hc].
  - change (strip_trailing (String c (String d u)))
      with (String c (strip_trailing (String d u))).
    cbn [all_chars]. by rewrite Hc, IH.
Qed.

Lemma strip_trailing_no_run s : no_run s = true → no_run (strip_trailing s) = true.
Proof.
  induction s as [|c t IH]; [done|].
  intros H. simpl in H. apply andb_true_iff in H as [Hc Ht].
  destruct t as [|d u].
  - simpl. destruct (is_underscore c) eqn:E; simpl; [done | by rewrite E].
  - change (strip_trailing (String c (String d u)))
      with (String c (strip_trailing (String d u))).
    cbn [no_run]. rewrite (IH Ht), andb_true_r.
    apply negb_true_iff. apply negb_true_iff in Hc.
    destruct (is_underscore c); [|done]. simpl in *.
    destruct (starts_with_underscore (strip_trailing (String d u))) eqn:E; [|done].
    apply strip_trailing_starts in E. simpl in E. congruence.
Qed.

Lemma strip_trailing_ends s :
  no_run s = true → ends_with_underscore (strip_trailing s) = false.
Proof.
  induction s as [|c t IH]; [done|].
  intros H. simpl in H. apply andb_true_iff in H as [Hc Ht].
  destruct t as [|d u].
  - simpl. by destruct (is_underscore c) eqn:E; simpl.
  - change (strip_trailing (String c (String d u)))
      with (String c (strip_trailing (String d u))).
    specialize (IH Ht).
    destruct (strip_trailing (String d u)) as [|e v] eqn:E; [|exact IH].
    simpl. apply negb_true_iff in Hc.
    destruct (is_underscore c); [|done]. simpl in Hc.
    destruct u as [|u1 u2]; simpl in E.
    + destruct (is_underscore d); [done | discriminate].
    + discriminate.
Qed.

Lemma strip_trailing_fixed s : ends_with_underscore s = false → strip_trailing s = s.
Proof.
  induction s as [|c t IH]; [done|].
  destruct t as [|d u]; simpl.
  - by intros ->.
  - intros H. f_equal. by apply IH.
Qed.

Lemma strip_leading_starts s :
  no_run s = true → starts_with_underscore (strip_leading s) = false.
Proof.
  destruct s as [|c t]; simpl; [done|].
  destruct (is_underscore c) eqn:Ec; simpl; [|by rewrite Ec].
  rewrite andb_true_iff, negb_true_iff. by intros [-> _].
Qed.

Lemma strip_leading_no_run s : no_run s = true → no_run (strip_leading s) = true.
Proof.
  destruct s as [|c t]; simpl; [done|].
  destruct (is_underscore c) eqn:Ec; simpl.
  - by rewrite andb_true_iff; intros [_ ->].
  - by rewrite Ec.
Qed.

Lemma strip_leading_all_chars P s :
  all_chars P s = true → all_chars P (strip_leading s) = true.
Proof.
  destruct s as [|c t]; simpl; [done|].
  destruct (is_underscore c); simpl; [|done].
  by rewrite andb_true_iff; intros [_ ->].
Qed.

Lemma strip_leading_fixed s : starts_with_underscore s = false → strip_leading s = s.
Proof. destruct s as [|c t]; simpl; [done|]. by intros ->. Qed.

(** *** Fourth pass *)

Lemma toLowerCase_starts s :
  starts_with_underscore (toLowerCase s) = starts_with_underscore s.
Proof. destruct s; simpl; [done|]. apply lower_char_underscore. Qed.

Lemma toLowerCase_no_run s : no_run (toLowerCase s) = no_run s.
Proof.
  induction s as [|c t IH]; simpl; [done|].
  by rewrite lower_char_underscore, toLowerCase_starts, IH.
Qed.

Lemma toLowerCase_ends s :
  ends_with_underscore (toLowerCase s) = ends_with_underscore s.
Proof.
  induction s as [|c t IH]; [done|].
  destruct t as [|d u]; simpl in *; [apply lower_char_underscore | exact IH].
Qed.

Lemma toLowerCase_word s :
  all_chars is_word_char s = true → all_chars is_lower_word_char (toLowerCase s) = true.
Proof.
  induction s as [|c t IH]; simpl; [done|].
  rewrite andb_true_iff. intros [Hc Ht]. by rewrite lower_char_word, IH.
Qed.

Lemma toLowerCase_fixed s :
  all_chars is_lower_word_char s = true → toLowerCase s = s.
Proof.
  induction s as [|c t IH]; simpl; [done|].
  rewrite andb_true_iff. intros [Hc Ht]. by rewrite lower_char_fixed, IH.
Qed.

(** *** The composition *)

Lemma sanitize_clean s : clean (sanitize s) = true.
Proof.
  unfold sanitize, strip_ends, clean.
  set (r := replace_non_word s).
  set (c := collapse_underscores r).
  assert (Hw : all_chars is_word_char c = true)
    by apply collapse_all_chars, replace_non_word_word.
  assert (Hn : no_run c = true) by apply collapse_no_run.
  rewrite toLowerCase_word, toLowerCase_no_run, toLowerCase_starts, toLowerCase_ends.
  - rewrite strip_trailing_no_run by by apply strip_leading_no_run.
    rewrite strip_trailing_ends by by apply strip_leading_no_run.
    destruct (starts_with_underscore (strip_trailing (strip_leading c))) eqn:E; [|done].
    apply strip_trailing_starts in E.
    by rewrite strip_leading_starts in E.
  - by apply strip_trailing_all_chars, strip_leading_all_chars.
Qed.

Lemma sanitize_fixed s : clean s = true → sanitize s = s.
Proof.
  unfold clean. rewrite !andb_true_iff, !negb_true_iff.
  intros [[[Hl Hn] Hs] He].
  unfold sanitize, strip_ends.
  rewrite replace_non_word_fixed by (eapply all_chars_impl; [apply lower_word_is_word | done]).
  rewrite collapse_fixed, strip_leading_fixed, strip_trailing_fixed by done.
  by apply toLowerCase_fixed.
Qed.

Lemma sanitize_idempotent s : sanitize (sanitize s) = sanitize s.
Proof. apply sanitize_fixed, sanitize_clean. Qed.

Lemma sanitize_no_word_char s :
  all_chars (λ c, negb (is_word_char c)) s = true → sanitize s = EmptyString.
Proof.
  intros H. apply replace_non_word_all_underscores in H.
  unfold sanitize. rewrite (collapse_all_underscores _ H).
  by destruct (replace_non_word s).
Qed.

(** ** Placeholders, as the specification words them *)

(** A name as the pattern captures it: at least one unit, none of them a
    closing brace. *)
Definition placeholder_name (name : string) : Prop :=
  name ≠ EmptyString ∧ all_chars (λ c, negb (is_close_brace c)) name = true.

(** The text [${name}]. *)
Definition placeholder (name : string) : string := "${" +:+ name +:+ "}".

(** [s] contains a placeholder somewhere. *)
Definition has_placeholder (s : string) : Prop :=
  ∃ pre name post, placeholder_name name ∧ s = pre +:+ placeholder name +:+ post.


Lemma append_assoc (a b c : string) : (a +:+ b) +:+ c = a +:+ b +:+ c.
Proof. induction a as [|x a IH]; simpl; [done | by rewrite IH]. Qed.


Lemma until_brace_sound s name rest :
  until_brace s = Some (name, rest) →
  s = name +:+ "}" +:+ rest ∧ all_chars (λ c, negb (is_close_brace c)) name = true.
Proof.
  revert name. induction s as [|c t IH]; intros name; simpl; [done|].
  destruct (is_close_brace c) eqn:Ec.
  - intros [= <- <-]. split; [|done]. simpl. f_equal. revert Ec. by_cases_on_char c.
  - destruct (until_brace t) as [[n r]|]; [|done].
    intros [= <- <-]. destruct (IH n eq_refl) as [-> Hn].
    split; [done|]. simpl. by rewrite Ec, Hn.
Qed.


Lemma match_placeholder_sound s name rest :
  match_placeholder s = Some (name, rest) →
  placeholder_name name ∧ s = placeholder name +:+ rest.
Proof.
  unfold match_placeholder.
  destruct s as [|a [|b t]]; try done.
  - by destruct a as [[] [] [] [] [] [] [] []].
  - destruct a as [[] [] [] [] [] [] [] []]; try done.
    destruct b as [[] [] [] [] [] [] [] []]; try done.
    destruct (until_brace t) as [[[|c n] r]|] eqn:E; try done.
    intros [= <- <-]. apply until_brace_sound in E as [-> Hn].
    split; [by split|]. unfold placeholder. simpl. by rewrite append_assoc.
Qed.

(** The two defining equations of [resolveEnvVars] on a non-empty text. *)
Lemma resolveEnvVars_match env s varName rest :
  match_placeholder s = Some (varName, rest) →
  resolveEnvVars env s = env_value env varName +:+ resolveEnvVars env rest.
Proof.
  destruct s as [|c t]; [done|].
  intros H. simp resolveEnvVars.
  generalize (inspect (match_placeholder (String c t))).
  intros [o Ho]. assert (o = Some (varName, rest)) as -> by congruence.
  by simp resolveEnvVars.
Qed.

Lemma resolveEnvVars_skip env c t :
  match_placeholder (String c t) = None →
  resolveEnvVars env (String c t) = String c (resolveEnvVars env t).
Proof.
  intros H. simp resolveEnvVars.
  generalize (inspect (match_placeholder (String c t))).
  intros [o Ho]. assert (o = None) as -> by congruence.
  by simp resolveEnvVars.
Qed.

Lemma has_placeholder_tail c t : has_placeholder t → has_placeholder (String c t).
Proof.
  intros (pre & name & post & Hn & ->). by exists (String c pre), name, post.
Qed.

Lemma resolveEnvVars_identity env s : ¬ has_placeholder s → resolveEnvVars env s = s.
Proof.
  induction s as [|c t IH]; intros Hno; [by simp resolveEnvVars|].
  destruct (match_placeholder (String c t)) as [[name rest]|] eqn:E.
  - exfalso. apply Hno. apply match_placeholder_sound in E as [Hn E].
    exists EmptyString, name, rest. by rewrite E.
  - rewrite (resolveEnvVars_skip _ _ _ E). f_equal. apply IH.
    intros H. by apply Hno, has_placeholder_tail.
Qed.





(** ** [String.prototype.includes] *)





(** ** Values, exceptions and completions *)

(** A parsed JSON value.  Numbers are carried as integers: the version tag
    of the tool cache is the only number this plugin looks at.  A missing
    property and [undefined] are [None] where a property is read. *)
Inductive json :=
| JNull
| JBool (b : bool)
| JNumber (n : Z)
| JString (s : string)
| JArray (items : list json)
| JObject (fields : list (string * json)).

(** What a [catch] clause receives, given by the two observations the
    handlers make of it: [message] is [err.message] when that property is
    neither [undefined] nor [null], and [rendered] is [String(err)].  The
    throw sites of the plugin and of the SDK throw [Error] objects; a
    rejection with [null] or [undefined], on which reading [message]
    would itself throw, is outside this type. *)
Record thrown := { message : option string; rendered : string }.

(** [new Error(msg)] *)
Definition Error (msg : string) : thrown :=
  {| message := Some msg; rendered := "Error: " +:+ msg |}.

(** The engine's [TypeError] for a property read on [null] or [undefined]. *)
Definition TypeError (msg : string) : thrown :=
  {| message := Some msg; rendered := "TypeError: " +:+ msg |}.

(** How a call or an awaited promise ends. *)
Inductive completion (A : Type) :=
| Return (a : A)
| Throw (e : thrown).
Arguments Return {A} a.
Arguments Throw {A} e.

Definition bind {A B} (m : completion A) (k : A → completion B) : completion B :=
  match m with
  | Return a => k a
  | Throw e => Throw e
  end.

(** [try { body } catch (err) { handler(err) }] *)
Definition try_catch {A} (body : completion A) (handler : thrown → completion A)
  : completion A :=
  match body with
  | Return a => Return a
  | Throw e => handler e
  end.

#[global] Instance completion_bind : MBind completion := λ A B k m, bind m k.

(** The member [k] of a parsed object, in which no key occurs twice. *)
Fixpoint lookup_field (k : string) (fields : list (string * json)) : option json :=
  match fields with
  | [] => None
  | (k', v) :: rest => if decide (k = k') then Some v else lookup_field k rest
  end.

(** [v.k]: a [TypeError] on [null], the member of an object, [undefined]
    on every other value (none of the keys read here is a built-in
    property of strings, numbers or arrays). *)
Definition property (v : json) (k : string) : completion (option json) :=
  match v with
  | JNull => Throw (TypeError ("Cannot read properties of null (reading '" +:+ k +:+ "')"))
  | JObject fields => Return (lookup_field k fields)
  | _ => Return None
  end.

(** [x ?? fallback] on a property that was read. *)
Definition nullish_or (x : option json) (fallback : json) : json :=
  match x with
  | None | Some JNull => fallback
  | Some v => v
  end.

(** [x === true] *)
Definition is_true (x : option json) : bool :=
  match x with
  | Some (JBool true) => true
  | _ => false
  end.

(** ** Configuration and cache, as the interfaces declare them *)

Record ServerConfig := {
  command : option string;
  args : option (list string);
  env : option (list (string * string));
  url : option string;
  headers : option (list (string * string));
  enabled : option bool;
  toolPrefix : option bool
}.

(** [CachedTool] in the cache-driven plugin and in the discovery script,
    [McpTool] in the eager plugin. *)
Record CachedTool := {
  name : string;
  description : option string;
  inputSchema : option json
}.

Record CacheEntry := {
  server : string;
  tools : list CachedTool;
  discoveredAt : string
}.

(** The result every handler returns. *)
Record ToolResult := { content : json; isError : bool }.

(** [{ type: "text", text }] *)
Definition text_item (text : string) : json :=
  JObject [("type", JString "text"); ("text", JString text)].

(** What is handed to [api.registerTool]: the descriptor's [name],
    [description] and [parameters], the two variables [serverName] and
    [mcpToolName] that its [execute] closes over, and the [optional] flag. *)
Record Registration := {
  reg_name : string;
  reg_description : string;
  reg_parameters : json;
  reg_server : string;
  reg_tool : string;
  reg_optional : bool
}.

(** [{ type: "object", properties: {} }] *)
Definition empty_object_schema : json :=
  JObject [("type", JString "object"); ("properties", JObject [])].

(** A string is truthy when it is not empty. *)
Definition truthy (s : option string) : option string :=
  match s with
  | Some EmptyString | None => None
  | Some v => Some v
  end.

(** A connected [Client] object is named by the number of the
    [connectServer] call that built it. *)
Definition Client := nat.

(** ** The invocation handler *)

Section Handlers.

(** [JSON.stringify] on a parsed value, and the awaited
    [client.callTool({ name, arguments })]. *)
Variable JSON_stringify : json → string.
Variable callTool : Client → string → json → completion json.

(** The object the [try] block returns, the same in both plugins:
    [{ content: (result.content as any[]) ?? [{ type: "text", text: JSON.stringify(result) }],
       isError: result.isError === true }] *)
Definition success_result (result : json) : completion ToolResult :=
  c ← property result "content";
  e ← property result "isError";
  Return {| content := nullish_or c (JArray [text_item (JSON_stringify result)]);
            isError := is_true e |}.

(** [err.message ?? String(err)] *)
Definition error_text (err : thrown) : string :=
  default (rendered err) (message err).

(** The object the [catch] block returns, the same in both plugins. *)
Definition failure_result (serverName mcpToolName : string) (err : thrown)
  : completion ToolResult :=
  Return {| content := JArray [text_item ("MCP error (" +:+ serverName +:+ "/"
                                   +:+ mcpToolName +:+ "): " +:+ error_text err)];
            isError := true |}.

End Handlers.

(** ** The cache-driven plugin *)

Module Cached.

Record PluginConfig := {
  servers : option (gmap string ServerConfig);
  optional : option bool
}.

(** What [register] has done when it returns. *)
Record Startup := {
  registered : list Registration;
  warnings : list string;
  infos : list string;
  service : bool
}.

Definition no_cache_warning : string :=
  "mcp-bridge: no tool cache found. Run `npx tsx discover.ts` in the plugin directory to discover MCP tools.".

Section Plugin.

Variable JSON_parse : string → completion json.
Variable JSON_stringify : json → string.
Variable callTool : Client → string → json → completion json.

(** [cache.version !== 1] *)
Definition version_is_not_1 (version : option json) : bool :=
  match version with
  | Some (JNumber 1) => false
  | _ => true
  end.

(** [Array.isArray(cache.servers)] *)
Definition isArray (v : option json) : bool :=
  match v with
  | Some (JArray _) => true
  | _ => false
  end.

(** [loadCache(pluginDir)]; [file] is how [fs.readFileSync(cachePath, "utf-8")]
    ends.  [None] is the [null] the function returns. *)
Definition loadCache (file : completion string) : completion (option json) :=
  try_catch
    (raw ← file;
     cache ← JSON_parse raw;
     version ← property cache "version";
     if version_is_not_1 version then Return None
     else servers ← property cache "servers";
          if negb (isArray servers) then Return None else Return (Some cache))
    (λ _, Return None).

(** [execute(_toolCallId, params)] of the tool registered for
    [serverName] and [mcpToolName]; [session] is how the awaited
    [getClient(serverName)] ends. *)
Definition execute (serverName mcpToolName : string)
    (session : completion Client) (params : json) : completion ToolResult :=
  try_catch
    (client ← session;
     result ← callTool client mcpToolName params;
     success_result JSON_stringify result)
    (failure_result serverName mcpToolName).

(** [[tool.description ?? `MCP tool from ${serverName}`,
      `(MCP: ${serverName}/${mcpToolName})`].join(" ")] *)
Definition tool_description (serverName : string) (tool : CachedTool) : string :=
  default ("MCP tool from " +:+ serverName) (description tool)
  +:+ " " +:+ "(MCP: " +:+ serverName +:+ "/" +:+ name tool +:+ ")".

Definition register_tool (serverName : string) (prefix optionalTools : bool)
    (tool : CachedTool) : Registration :=
  {| reg_name := sanitizeToolName serverName (name tool) prefix;
     reg_description := tool_description serverName tool;
     reg_parameters := default empty_object_schema (inputSchema tool);
     reg_server := serverName;
     reg_tool := name tool;
     reg_optional := optionalTools |}.

(** The body of the loop over [cache.servers]. *)
Definition register_entry (servers : gmap string ServerConfig) (optionalTools : bool)
    (cacheEntry : CacheEntry) : list Registration :=
  match servers !! server cacheEntry with
  | None => []
  | Some serverConfig =>
      if decide (enabled serverConfig = Some false) then []
      else
        let prefix := negb (bool_decide (toolPrefix serverConfig = Some false)) in
        register_tool (server cacheEntry) prefix optionalTools <$> tools cacheEntry
  end.

Definition register_tools (servers : gmap string ServerConfig) (optionalTools : bool)
    (entries : list CacheEntry) : list Registration :=
  entries ≫= register_entry servers optionalTools.

(** *** Reading the cache at the type [interface Cache] declares

    [loadCache] casts the parsed document to [Cache] without looking at the
    entries.  The loop of [register] is modelled on documents whose entries
    have the declared shape; [None] below marks the others. *)

Definition read_optional_string (v : option json) : option (option string) :=
  match v with
  | None | Some JNull => Some None
  | Some (JString s) => Some (Some s)
  | Some _ => None
  end.

Definition read_schema (v : option json) : option json :=
  match v with
  | None | Some JNull => None
  | Some v => Some v
  end.

Definition read_tool (v : json) : option CachedTool :=
  match v with
  | JObject fields =>
      match lookup_field "name" fields, read_optional_string (lookup_field "description" fields) with
      | Some (JString n), Some d =>
          Some {| name := n; description := d;
                  inputSchema := read_schema (lookup_field "inputSchema" fields) |}
      | _, _ => None
      end
  | _ => None
  end.

Definition read_entry (v : json) : option CacheEntry :=
  match v with
  | JObject fields =>
      match lookup_field "server" fields, lookup_field "tools" fields with
      | Some (JString s), Some (JArray ts) =>
          ts' ← mapM read_tool ts;
          Some {| server := s; tools := ts';
                  discoveredAt := match lookup_field "discoveredAt" fields with
                                  | Some (JString d) => d
                                  | _ => EmptyString
                                  end |}
      | _, _ => None
      end
  | _ => None
  end.

(** [cache.servers] of a document that [loadCache] let through. *)
Definition cache_servers (cache : json) : option (list CacheEntry) :=
  match cache with
  | JObject fields =>
      match lookup_field "servers" fields with
      | Some (JArray entries) => mapM read_entry entries
      | _ => None
      end
  | _ => None
  end.

(** [register(api)]: [config] is the [config] of the plugin's entry in
    [api.config] (when the chain of optional reads reaches one), [file] is
    how reading the cache file ends.  The result is [None] when the cache
    passes [loadCache] but its entries do not have the declared shape. *)
Definition register (config : option PluginConfig) (file : completion string)
  : option (completion Startup) :=
  let servers := default ∅ (config ≫= servers) in
  let optionalTools := default false (config ≫= optional) in
  let degraded :=
    Some (Return {| registered := []; warnings := [no_cache_warning];
                    infos := []; service := false |}) in
  match loadCache file with
  | Throw e => Some (Throw e)
  | Return None => degraded
  | Return (Some cache) =>
      entries ← cache_servers cache;
      match entries with
      | [] => degraded
      | _ =>
          let regs := register_tools servers optionalTools entries in
          Some (Return {| registered := regs; warnings := [];
                          infos := ["mcp-bridge: registered " +:+ pretty (length regs)
                                    +:+ " tool(s) from " +:+ pretty (length entries)
                                    +:+ " server(s)"];
                          service := true |})
      end
  end.

End Plugin.

(** *** The lazy connection pool

    The plugin runs on one thread: a piece of code runs from one suspension
    point to the next without interference.  The pool is modelled by the
    state that [getClient], [connectServer] and the [stop] service share,
    and by one transition for each such piece. *)

Inductive Transport :=
| Stdio (command : string) (args : list string) (env : gmap string string)
| SSE (url : string) (headers : list (string * string)).

Inductive promise_state :=
| Pending
| Settled (o : completion Client).

(** One call of [connectServer]: its [serverName], the transport it built
    (if the configuration names one), the state of the promise it
    returned, and whether the [getClient] frame that made the call is
    still parked at [await promise]. *)
Record Attempt := {
  att_server : string;
  att_transport : option Transport;
  att_promise : promise_state;
  att_parked : bool
}.

(** [clients] and [connecting] are the two [Map]s; [attempts] lists the
    calls of [connectServer] in order, so that a promise is named by the
    index of its call; [closed] lists the clients [stop] has closed. *)
Record Pool := {
  clients : gmap string Client;
  connecting : gmap string nat;
  attempts : list Attempt;
  closed : list Client
}.

Definition initial : Pool :=
  {| clients := ∅; connecting := ∅; attempts := []; closed := [] |}.

(** What a call of [getClient] hands to its caller: a promise that is
    settled already ([return existing], or the [throw] for a missing
    configuration), or a promise that follows the promise of an attempt
    (the frame that awaits it, or [return pending]). *)
Inductive Handle :=
| Now (o : completion Client)
| Follows (promise : nat).

(** The pieces of code that run between two suspension points:
    - [Call]: some handler calls [getClient(serverName)], which runs up to
      its [await] or to its return;
    - [Settle]: the transport layer settles the promise of an attempt,
      with the client ([None]) or with what was thrown;
    - [Resume]: the frame parked at [await promise] runs to its end;
    - [StopClose], [StopClear]: a turn of the loop of [stop], and its
      final [clients.clear()]. *)
Inductive event :=
| Call (serverName : string)
| Settle (promise : nat) (failure : option thrown)
| Resume (promise : nat)
| StopClose (name : string)
| StopClear.

Section Pool.

Variable process_env : gmap string string.
Variable servers : gmap string ServerConfig.

Definition resolve_record (rec : option (list (string * string))) : list (string * string) :=
  map (λ kv, (kv.1, resolveEnvVars process_env kv.2)) (default [] rec).

(** The transport [connectServer] hands to [client.connect]: a spawned
    process when [command] is set, else an SSE connection when [url] is
    set, with every placeholder resolved. *)
Definition connectServer_transport (serverConfig : ServerConfig) : option Transport :=
  match truthy (command serverConfig) with
  | Some cmd =>
      Some (Stdio (resolveEnvVars process_env cmd)
                  (map (resolveEnvVars process_env) (default [] (args serverConfig)))
                  (list_to_map (resolve_record (env serverConfig)) ∪ process_env))
  | None =>
      match truthy (url serverConfig) with
      | Some u => Some (SSE (resolveEnvVars process_env u)
                            (resolve_record (headers serverConfig)))
      | None => None
      end
  end.

(** [connectServer(serverName, serverConfig)] up to its first [await]: the
    promise it returns is pending while the transport is set up and
    connects, and is rejected at once when the configuration has neither
    [command] nor [url]. *)
Definition connectServer (serverName : string) (serverConfig : ServerConfig) : Attempt :=
  let transport := connectServer_transport serverConfig in
  {| att_server := serverName;
     att_transport := transport;
     att_promise :=
       match transport with
       | Some _ => Pending
       | None => Settled (Throw (Error ("Server " +:+ serverName
                                         +:+ ": must specify 'command' or 'url'")))
       end;
     att_parked := true |}.

(** [getClient(serverName)] up to its first suspension point or its
    return. *)
Definition getClient (serverName : string) (σ : Pool) : Handle * Pool :=
  match clients σ !! serverName with
  | Some existing => (Now (Return existing), σ)
  | None =>
      match connecting σ !! serverName with
      | Some pending => (Follows pending, σ)
      | None =>
          match servers !! serverName with
          | None =>
              (Now (Throw (Error ("No config for MCP server '" +:+ serverName +:+ "'"))), σ)
          | Some serverConfig =>
              let promise := length (attempts σ) in
              (Follows promise,
               {| clients := clients σ;
                  connecting := <[serverName := promise]> (connecting σ);
                  attempts := attempts σ ++ [connectServer serverName serverConfig];
                  closed := closed σ |})
          end
      end
  end.

Definition unpark (a : Attempt) : Attempt :=
  {| att_server := att_server a; att_transport := att_transport a;
     att_promise := att_promise a; att_parked := false |}.

(** The rest of [getClient] behind [await promise]: [clients.set] when the
    promise was fulfilled, and [connecting.delete] in the [finally] block
    either way. *)
Definition getClient_resume (promise : nat) (σ : Pool) : option Pool :=
  a ← attempts σ !! promise;
  if att_parked a then
    match att_promise a with
    | Pending => None
    | Settled (Return client) =>
        Some {| clients := <[att_server a := client]> (clients σ);
                connecting := delete (att_server a) (connecting σ);
                attempts := <[promise := unpark a]> (attempts σ);
                closed := closed σ |}
    | Settled (Throw _) =>
        Some {| clients := clients σ;
                connecting := delete (att_server a) (connecting σ);
                attempts := <[promise := unpark a]> (attempts σ);
                closed := closed σ |}
    end
  else None.

(** The transport layer ends a pending attempt: [connectServer] returns
    the client it built, or something below it throws. *)
Definition settle (promise : nat) (failure : option thrown) (σ : Pool) : option Pool :=
  a ← attempts σ !! promise;
  match att_promise a with
  | Pending =>
      let o := match failure with
               | None => Return promise
               | Some e => Throw e
               end in
      Some {| clients := clients σ; connecting := connecting σ;
              attempts := <[promise := {| att_server := att_server a;
                                          att_transport := att_transport a;
                                          att_promise := Settled o;
                                          att_parked := att_parked a |}]> (attempts σ);
              closed := closed σ |}
  | Settled _ => None
  end.

(** One turn of the loop of [stop]: [await client.close()] for an entry
    of [clients].  The order in which the loop meets the entries is left
    open. *)
Definition stop_close (name : string) (σ : Pool) : option Pool :=
  client ← clients σ !! name;
  Some {| clients := clients σ; connecting := connecting σ;
          attempts := attempts σ; closed := client :: closed σ |}.

(** [clients.clear()] at the end of [stop]. *)
Definition stop_clear (σ : Pool) : Pool :=
  {| clients := ∅; connecting := connecting σ;
     attempts := attempts σ; closed := closed σ |}.

Definition step (e : event) (σ : Pool) : option (Pool * list Handle) :=
  match e with
  | Call serverName => let '(h, σ') := getClient serverName σ in Some (σ', [h])
  | Settle promise failure => σ' ← settle promise failure σ; Some (σ', [])
  | Resume promise => σ' ← getClient_resume promise σ; Some (σ', [])
  | StopClose name => σ' ← stop_close name σ; Some (σ', [])
  | StopClear => Some (stop_clear σ, [])
  end.

(** A schedule: the pieces of code in the order in which they run.  The
    result is the final pool and the handles the calls of [getClient]
    returned, in order. *)
Fixpoint run (script : list event) (σ : Pool) : option (Pool * list Handle) :=
  match script with
  | [] => Some (σ, [])
  | e :: rest =>
      '(σ1, hs1) ← step e σ;
      '(σ2, hs2) ← run rest σ1;
      Some (σ2, hs1 ++ hs2)
  end.

Definition reachable (σ : Pool) : Prop :=
  ∃ script handles, run script initial = Some (σ, handles).

(** How a promise handed out by [getClient] is settled, if it is.  A
    promise that follows an attempt is settled by a reaction registered
    behind the [await] of the frame that started the attempt, hence only
    once that frame has run its continuation. *)
Definition outcome (σ : Pool) (h : Handle) : option (completion Client) :=
  match h with
  | Now o => Some o
  | Follows promise =>
      a ← attempts σ !! promise;
      if att_parked a then None
      else match att_promise a with
           | Settled o => Some o
           | Pending => None
           end
  end.

(** The number of [connectServer] calls made for [serverName]. *)
Definition connect_calls (serverName : string) (σ : Pool) : nat :=
  length (filter (λ a, att_server a = serverName) (attempts σ)).

(** *** What holds of the pool at every suspension point *)

Record pool_inv (σ : Pool) : Prop := {
  inv_exclusive : ∀ s c, clients σ !! s = Some c → connecting σ !! s = None;
  inv_connecting : ∀ s p, connecting σ !! s = Some p →
    ∃ a, attempts σ !! p = Some a ∧ att_server a = s ∧ att_parked a = true;
  inv_parked : ∀ p a, attempts σ !! p = Some a → att_parked a = true →
    connecting σ !! att_server a = Some p;
  inv_pending : ∀ p a, attempts σ !! p = Some a → att_promise a = Pending →
    att_parked a = true
}.

Lemma pool_inv_initial : pool_inv initial.
Proof. split; simpl; intros *; by rewrite ?lookup_empty. Qed.

Lemma getClient_cases serverName σ :
  (∃ c, clients σ !! serverName = Some c ∧ getClient serverName σ = (Now (Return c), σ))
  ∨ (∃ p, clients σ !! serverName = None ∧ connecting σ !! serverName = Some p
          ∧ getClient serverName σ = (Follows p, σ))
  ∨ (clients σ !! serverName = None ∧ connecting σ !! serverName = None
     ∧ servers !! serverName = None
     ∧ getClient serverName σ
       = (Now (Throw (Error ("No config for MCP server '" +:+ serverName +:+ "'"))), σ))
  ∨ (∃ cfg, clients σ !! serverName = None ∧ connecting σ !! serverName = None
     ∧ servers !! serverName = Some cfg
     ∧ getClient serverName σ
       = (Follows (length (attempts σ)),
          {| clients := clients σ;
             connecting := <[serverName := length (attempts σ)]> (connecting σ);
             attempts := attempts σ ++ [connectServer serverName cfg];
             closed := closed σ |})).
Proof.
  unfold getClient.
  destruct (clients σ !! serverName) as [c|]; [left; eauto|].
  destruct (connecting σ !! serverName) as [p|]; [right; left; eauto|].
  destruct (servers !! serverName) as [cfg|]; [|right; right; left; eauto].
  right; right; right. eauto 10.
Qed.

Lemma getClient_inv serverName σ : pool_inv σ → pool_inv (getClient serverName σ).2.
Proof.
  intros Hinv.
  destruct (getClient_cases serverName σ)
    as [(c & _ & ->)|[(p & _ & _ & ->)|[(_ & _ & _ & ->)|(cfg & Hc & Hp & _ & ->)]]];
    try done.
  destruct Hinv as [Hex Hcon Hpar Hpen]. split; simpl.
  - intros s c Hs. destruct (decide (serverName = s)) as [->|Hne]; [congruence|].
    rewrite lookup_insert_ne by done. eauto.
  - intros s p. destruct (decide (serverName = s)) as [->|Hne].
    + rewrite lookup_insert_eq. intros [= <-].
      exists (connectServer s cfg). by rewrite list_lookup_middle.
    + rewrite lookup_insert_ne by done. intros Hs.
      destruct (Hcon _ _ Hs) as (a & Ha & Hsrv & Hpk).
      exists a. split_and!; try done. by apply lookup_app_l_Some.
  - intros p a Ha Hpk. apply lookup_snoc_Some in Ha as [[Hlt Ha]|[-> <-]].
    + specialize (Hpar _ _ Ha Hpk).
      destruct (decide (serverName = att_server a)) as [->|Hne]; [congruence|].
      by rewrite lookup_insert_ne.
    + simpl. by rewrite lookup_insert_eq.
  - intros p a Ha Hpd. apply lookup_snoc_Some in Ha as [[Hlt Ha]|[-> <-]]; eauto.
Qed.

Lemma settle_inv promise failure σ σ' :
  settle promise failure σ = Some σ' → pool_inv σ → pool_inv σ'.
Proof.
  unfold settle. intros Hs [Hex Hcon Hpar Hpen].
  destruct (attempts σ !! promise) as [a|] eqn:Ha; simpl in Hs; [|done].
  destruct (att_promise a) eqn:Hp; [|done]. injection Hs as <-.
  assert (Hlt : promise < length (attempts σ)) by by eapply lookup_lt_Some.
  split; simpl; [done|..].
  - intros s p Hs. destruct (Hcon _ _ Hs) as (b & Hb & Hsrv & Hpk).
    destruct (decide (promise = p)) as [->|Hne].
    + rewrite list_lookup_insert_eq by done. eexists. split; [done|].
      simpl. assert (a = b) as -> by congruence. done.
    + rewrite list_lookup_insert_ne by done. eauto.
  - intros p b Hb Hpk. apply list_lookup_insert_Some in Hb as [(-> & <- & _)|[Hne Hb]].
    + simpl in *. eauto.
    + eauto.
  - intros p b Hb Hpd. apply list_lookup_insert_Some in Hb as [(-> & <- & _)|[Hne Hb]].
    + done.
    + eauto.
Qed.

Lemma getClient_resume_inv promise σ σ' :
  getClient_resume promise σ = Some σ' → pool_inv σ → pool_inv σ'.
Proof.
  unfold getClient_resume. intros Hr [Hex Hcon Hpar Hpen].
  destruct (attempts σ !! promise) as [a|] eqn:Ha; simpl in Hr; [|done].
  destruct (att_parked a) eqn:Hpk; [|done].
  assert (Hlt : promise < length (attempts σ)) by by eapply lookup_lt_Some.
  pose proof (Hpar _ _ Ha Hpk) as Hcur.
  assert (Hcon' : ∀ s p, delete (att_server a) (connecting σ) !! s = Some p →
            ∃ b, <[promise := unpark a]> (attempts σ) !! p = Some b
                 ∧ att_server b = s ∧ att_parked b = true).
  { intros s p Hs. apply lookup_delete_Some in Hs as [Hne Hs].
    destruct (Hcon _ _ Hs) as (b & Hb & Hsrv & Hbk).
    assert (promise ≠ p) by (intros ->; congruence).
    exists b. by rewrite list_lookup_insert_ne. }
  assert (Hpar' : ∀ p b, <[promise := unpark a]> (attempts σ) !! p = Some b →
            att_parked b = true →
            delete (att_server a) (connecting σ) !! att_server b = Some p).
  { intros p b Hb Hbk.
    apply list_lookup_insert_Some in Hb as [(-> & <- & _)|[Hne Hb]]; [done|].
    pose proof (Hpar _ _ Hb Hbk) as Hcb.
    apply lookup_delete_Some. split; [|done]. intros Heq. congruence. }
  assert (Hpen' : ∀ p b, <[promise := unpark a]> (attempts σ) !! p = Some b →
            att_promise b = Pending → att_parked b = true).
  { intros p b Hb Hpd.
    apply list_lookup_insert_Some in Hb as [(-> & <- & _)|[Hne Hb]]; [|eauto].
    simpl in Hpd. destruct (att_promise a) as [|[]]; done. }
  destruct (att_promise a) as [|[client|e]]; [done|..]; injection Hr as <-;
    split; simpl; try done.
  - intros s c Hs. destruct (decide (att_server a = s)) as [<-|Hne].
    + apply lookup_delete_eq.
    + rewrite lookup_insert_ne in Hs by done.
      rewrite lookup_delete_ne by done. eauto.
  - intros s c Hs. destruct (decide (att_server a = s)) as [<-|Hne].
    + apply lookup_delete_eq.
    + rewrite lookup_delete_ne by done. eauto.
Qed.

Lemma stop_close_inv name σ σ' :
  stop_close name σ = Some σ' → pool_inv σ → pool_inv σ'.
Proof.
  unfold stop_close. intros Hs [Hex Hcon Hpar Hpen].
  destruct (clients σ !! name); simpl in Hs; [|done]. injection Hs as <-.
  by split.
Qed.

Lemma stop_clear_inv σ : pool_inv σ → pool_inv (stop_clear σ).
Proof.
  intros [Hex Hcon Hpar Hpen].
  split; simpl; try done; intros s c; by rewrite lookup_empty.
Qed.

Lemma step_inv e σ σ' hs : step e σ = Some (σ', hs) → pool_inv σ → pool_inv σ'.
Proof.
  destruct e as [s|p f|p|n|]; simpl.
  - pose proof (getClient_inv s σ) as H. destruct (getClient s σ) as [h σ1].
    intros [= <- <-]. exact H.
  - destruct (settle p f σ) as [σ1|] eqn:E; simpl; [|done].
    intros [= <- <-]. by eapply settle_inv.
  - destruct (getClient_resume p σ) as [σ1|] eqn:E; simpl; [|done].
    intros [= <- <-]. by eapply getClient_resume_inv.
  - destruct (stop_close n σ) as [σ1|] eqn:E; simpl; [|done].
    intros [= <- <-]. by eapply stop_close_inv.
  - intros [= <- <-]. apply stop_clear_inv.
Qed.

Lemma run_cons e rest σ σ' hs :
  run (e :: rest) σ = Some (σ', hs) ↔
  ∃ σ1 hs1 hs2, step e σ = Some (σ1, hs1) ∧ run rest σ1 = Some (σ', hs2) ∧ hs = hs1 ++ hs2.
Proof.
  simpl. split.
  - destruct (step e σ) as [[σ1 hs1]|]; simpl; [|done].
    destruct (run rest σ1) as [[σ2 hs2]|] eqn:Hr; simpl; [|done].
    intros [= <- <-]. by exists σ1, hs1, hs2.
  - intros (σ1 & hs1 & hs2 & -> & Hr & ->). simpl. by rewrite Hr.
Qed.

Lemma run_inv script σ σ' hs : run script σ = Some (σ', hs) → pool_inv σ → pool_inv σ'.
Proof.
  revert σ hs. induction script as [|e rest IH]; intros σ hs.
  - by intros [= <- <-].
  - intros (σ1 & hs1 & hs2 & He & Hr & ->)%run_cons Hinv.
    eapply IH; [done|]. by eapply step_inv.
Qed.

Lemma reachable_inv σ : reachable σ → pool_inv σ.
Proof. intros (script & hs & Hrun). eapply run_inv; [done | apply pool_inv_initial]. Qed.

(** *** Calls that meet one attempt *)

(** The transport layer settles an attempt only if [connectServer] got as
    far as a transport; otherwise the promise was rejected when it was
    made. *)
Definition settlement (serverConfig : ServerConfig) (promise : nat)
    (failure : option thrown) : list event :=
  match connectServer_transport serverConfig with
  | Some _ => [Settle promise failure]
  | None => []
  end.

Definition attempt_outcome (serverName : string) (serverConfig : ServerConfig)
    (promise : nat) (failure : option thrown) : completion Client :=
  match connectServer_transport serverConfig with
  | Some _ => match failure with
              | None => Return promise
              | Some e => Throw e
              end
  | None => Throw (Error ("Server " +:+ serverName +:+ ": must specify 'command' or 'url'"))
  end.

(** [S before + after] calls of [getClient(serverName)], all of them made
    before the frame of the first one continues: [before] further calls
    while the attempt is in flight, [after] calls between the settling of
    the promise and the continuation of the first frame. *)
Definition concurrent_calls (serverName : string) (serverConfig : ServerConfig)
    (before after promise : nat) (failure : option thrown) : list event :=
  Call serverName :: replicate before (Call serverName)
  ++ settlement serverConfig promise failure
  ++ replicate after (Call serverName) ++ [Resume promise].

Lemma run_app a b σ :
  run (a ++ b) σ
  = '(σ1, hs1) ← run a σ; '(σ2, hs2) ← run b σ1; Some (σ2, hs1 ++ hs2).
Proof.
  revert σ. induction a as [|e a IH]; intros σ; simpl.
  - by destruct (run b σ) as [[σ2 hs2]|].
  - destruct (step e σ) as [[σ1 hs1]|]; simpl; [|done].
    rewrite IH. destruct (run a σ1) as [[σ2 hs2]|]; simpl; [|done].
    destruct (run b σ2) as [[σ3 hs3]|]; simpl; [|done].
    by rewrite app_assoc.
Qed.

Lemma getClient_pending serverName promise σ :
  clients σ !! serverName = None → connecting σ !! serverName = Some promise →
  getClient serverName σ = (Follows promise, σ).
Proof. intros Hc Hp. unfold getClient. by rewrite Hc, Hp. Qed.

Lemma run_calls_pending n serverName promise σ :
  clients σ !! serverName = None → connecting σ !! serverName = Some promise →
  run (replicate n (Call serverName)) σ = Some (σ, replicate n (Follows promise)).
Proof.
  intros Hc Hp. induction n as [|n IH]; simpl; [done|].
  rewrite (getClient_pending _ _ _ Hc Hp). simpl. by rewrite IH.
Qed.

Lemma run_settlement serverName serverConfig failure clients0 connecting0 attempts0 closed0 :
  let promise := length attempts0 in
  run (settlement serverConfig promise failure)
      {| clients := clients0; connecting := connecting0;
         attempts := attempts0 ++ [connectServer serverName serverConfig];
         closed := closed0 |}
  = Some ({| clients := clients0; connecting := connecting0;
             attempts := attempts0 ++
               [{| att_server := serverName;
                   att_transport := connectServer_transport serverConfig;
                   att_promise := Settled (attempt_outcome serverName serverConfig
                                                           promise failure);
                   att_parked := true |}];
             closed := closed0 |}, []).
Proof.
  intros promise. unfold settlement, attempt_outcome, connectServer.
  destruct (connectServer_transport serverConfig) as [t|]; simpl; [|done].
  unfold settle. simpl. rewrite list_lookup_middle by done. simpl.
  rewrite insert_app_r_alt by done. by rewrite Nat.sub_diag.
Qed.

(** The pool after the calls: the attempt is recorded, settled and no
    longer awaited; the client is stored if there is one. *)
Definition after_calls (serverName : string) (serverConfig : ServerConfig)
    (failure : option thrown) (σ : Pool) : Pool :=
  let promise := length (attempts σ) in
  let o := attempt_outcome serverName serverConfig promise failure in
  {| clients := match o with
                | Return client => <[serverName := client]> (clients σ)
                | Throw _ => clients σ
                end;
     connecting := connecting σ;
     attempts := attempts σ ++
       [{| att_server := serverName;
           att_transport := connectServer_transport serverConfig;
           att_promise := Settled o;
           att_parked := false |}];
     closed := closed σ |}.

Lemma run_call serverName rest σ :
  run (Call serverName :: rest) σ
  = '(σ2, hs) ← run rest (getClient serverName σ).2;
    Some (σ2, (getClient serverName σ).1 :: hs).
Proof. simpl. by destruct (getClient serverName σ) as [h σ1]. Qed.

Lemma getClient_fresh serverName serverConfig σ :
  servers !! serverName = Some serverConfig →
  clients σ !! serverName = None → connecting σ !! serverName = None →
  getClient serverName σ
  = (Follows (length (attempts σ)),
     {| clients := clients σ;
        connecting := <[serverName := length (attempts σ)]> (connecting σ);
        attempts := attempts σ ++ [connectServer serverName serverConfig];
        closed := closed σ |}).
Proof. intros Hcfg Hc Hp. unfold getClient. by rewrite Hc, Hp, Hcfg. Qed.

Lemma concurrent_calls_run serverName serverConfig before after failure σ :
  servers !! serverName = Some serverConfig →
  clients σ !! serverName = None → connecting σ !! serverName = None →
  run (concurrent_calls serverName serverConfig before after (length (attempts σ)) failure) σ
  = Some (after_calls serverName serverConfig failure σ,
          replicate (S before + after) (Follows (length (attempts σ)))).
Proof.
  intros Hcfg Hc Hp. unfold concurrent_calls.
  set (promise := length (attempts σ)).
  rewrite run_call, (getClient_fresh _ _ _ Hcfg Hc Hp). fold promise. cbn [fst snd].
  rewrite run_app.
  rewrite (run_calls_pending before serverName promise)
    by (simpl; by rewrite ?lookup_insert_eq).
  cbn [mbind option_bind].
  subst promise. rewrite run_app.
  rewrite (run_settlement serverName serverConfig failure).
  set (promise := length (attempts σ)). cbn [mbind option_bind].
  rewrite run_app.
  rewrite (run_calls_pending after serverName promise)
    by (simpl; by rewrite ?lookup_insert_eq).
  cbn [mbind option_bind]. simpl run.
  unfold getClient_resume. simpl. subst promise.
  rewrite list_lookup_middle by done. simpl.
  rewrite insert_app_r_alt by done. rewrite Nat.sub_diag. simpl.
  rewrite delete_insert_eq, (delete_id _ _ Hp).
  unfold after_calls.
  replace (replicate (before + after) (Follows (length (attempts σ))))
    with (replicate before (Follows (length (attempts σ))) ++ []
          ++ replicate after (Follows (length (attempts σ))) ++ [])
    by (simpl; by rewrite app_nil_r, replicate_add).
  by destruct (attempt_outcome serverName serverConfig (length (attempts σ)) failure).
Qed.

Lemma outcome_after_calls serverName serverConfig failure σ :
  outcome (after_calls serverName serverConfig failure σ) (Follows (length (attempts σ)))
  = Some (attempt_outcome serverName serverConfig (length (attempts σ)) failure).
Proof. unfold outcome, after_calls. simpl. by rewrite list_lookup_middle. Qed.

Lemma connect_calls_after_calls serverName serverConfig failure σ s :
  connect_calls s (after_calls serverName serverConfig failure σ)
  = connect_calls s σ + (if decide (serverName = s) then 1 else 0).
Proof.
  unfold connect_calls, after_calls. simpl.
  rewrite filter_app, length_app. f_equal.
  rewrite filter_cons. simpl. by destruct (decide (serverName = s)).
Qed.

(** *** Settled calls leave no pending entry *)

Lemma outcome_parked σ promise a :
  attempts σ !! promise = Some a → att_parked a = true →
  outcome σ (Follows promise) = None.
Proof. intros Ha Hpk. unfold outcome. rewrite Ha. simpl. by rewrite Hpk. Qed.

Lemma getClient_settled_clears serverName σ h σ' :
  pool_inv σ → getClient serverName σ = (h, σ') →
  is_Some (outcome σ' h) → connecting σ' !! serverName = None.
Proof.
  intros Hinv Hg Hsome.
  destruct (getClient_cases serverName σ)
    as [(c & Hc & E)|[(p & _ & Hp & E)|[(_ & Hp & _ & E)|(cfg & _ & _ & _ & E)]]];
    rewrite E in Hg; injection Hg as <- <-.
  - by eapply inv_exclusive.
  - destruct (inv_connecting _ Hinv _ _ Hp) as (a & Ha & _ & Hpk).
    rewrite (outcome_parked _ _ _ Ha Hpk) in Hsome. by destruct Hsome.
  - done.
  - rewrite (outcome_parked _ _ (connectServer serverName cfg)) in Hsome.
    + by destruct Hsome.
    + simpl. by rewrite list_lookup_middle.
    + done.
Qed.

Lemma outcome_unchanged σ σ' promise :
  attempts σ' !! promise = attempts σ !! promise →
  outcome σ' (Follows promise) = outcome σ (Follows promise).
Proof. intros H. unfold outcome. by rewrite H. Qed.

Lemma step_settled_clears e σ σ' hs promise a :
  pool_inv σ → step e σ = Some (σ', hs) →
  attempts σ !! promise = Some a →
  outcome σ (Follows promise) = None → is_Some (outcome σ' (Follows promise)) →
  connecting σ' !! att_server a = None.
Proof.
  intros Hinv Hstep Ha Hnone Hsome.
  assert (Hlt : promise < length (attempts σ)) by by eapply lookup_lt_Some.
  assert (Hsame : attempts σ' !! promise = attempts σ !! promise → False).
  { intros H. rewrite (outcome_unchanged _ _ _ H), Hnone in Hsome. by destruct Hsome. }
  destruct e as [s|q f|q|n|]; simpl in Hstep.
  - exfalso. apply Hsame.
    destruct (getClient_cases s σ)
      as [(c & _ & E)|[(p & _ & _ & E)|[(_ & _ & _ & E)|(cfg & _ & _ & _ & E)]]];
      rewrite E in Hstep; injection Hstep as <- <-; try done.
    simpl. by apply lookup_app_l.
  - exfalso. unfold settle in Hstep.
    destruct (attempts σ !! q) as [b|] eqn:Hb; simpl in Hstep; [|done].
    destruct (att_promise b) eqn:Hpd; [|done]. injection Hstep as <- <-.
    destruct (decide (q = promise)) as [->|Hne].
    + assert (b = a) as -> by congruence.
      pose proof (inv_pending _ Hinv _ _ Ha Hpd) as Hpk.
      unfold outcome in Hsome. simpl in Hsome.
      rewrite list_lookup_insert_eq in Hsome by done. simpl in Hsome.
      rewrite Hpk in Hsome. by destruct Hsome.
    + apply Hsame. simpl. by rewrite list_lookup_insert_ne.
  - unfold getClient_resume in Hstep.
    destruct (attempts σ !! q) as [b|] eqn:Hb; simpl in Hstep; [|done].
    destruct (att_parked b) eqn:Hpk; [|done].
    destruct (decide (q = promise)) as [->|Hne].
    + assert (b = a) as -> by congruence.
      destruct (att_promise a) as [|[c|x]]; [done|..];
        injection Hstep as <- <-; simpl; apply lookup_delete_eq.
    + exfalso. apply Hsame.
      destruct (att_promise b) as [|[c|x]]; [done|..];
        injection Hstep as <- <-; simpl; by rewrite list_lookup_insert_ne.
  - exfalso. apply Hsame. unfold stop_close in Hstep.
    destruct (clients σ !! n); simpl in Hstep; [|done]. by injection Hstep as <- <-.
  - exfalso. apply Hsame. by injection Hstep as <- <-.
Qed.

(** A failed attempt leaves the server as it was before the attempt:
    the next call starts over. *)
Lemma getClient_retry σ σ' promise a e serverConfig :
  pool_inv σ → attempts σ !! promise = Some a →
  att_promise a = Settled (Throw e) →
  getClient_resume promise σ = Some σ' →
  servers !! att_server a = Some serverConfig →
  clients σ' !! att_server a = None ∧ connecting σ' !! att_server a = None
  ∧ getClient (att_server a) σ'
    = (Follows (length (attempts σ')),
       {| clients := clients σ';
          connecting := <[att_server a := length (attempts σ')]> (connecting σ');
          attempts := attempts σ' ++ [connectServer (att_server a) serverConfig];
          closed := closed σ' |}).
Proof.
  intros Hinv Ha Hp Hr Hcfg. unfold getClient_resume in Hr.
  rewrite Ha in Hr. simpl in Hr.
  destruct (att_parked a) eqn:Hpk; [|done]. rewrite Hp in Hr. injection Hr as <-.
  pose proof (inv_parked _ Hinv _ _ Ha Hpk) as Hcur.
  assert (Hc : clients σ !! att_server a = None).
  { destruct (clients σ !! att_server a) as [c|] eqn:E; [|done].
    pose proof (inv_exclusive _ Hinv _ _ E). congruence. }
  split_and!; [done | apply lookup_delete_eq |].
  refine (getClient_fresh _ serverConfig _ Hcfg _ _); [done | apply lookup_delete_eq].
Qed.

(** After a fulfilled attempt the next call takes the stored client. *)
Lemma getClient_reuse σ σ' promise a client :
  attempts σ !! promise = Some a →
  att_promise a = Settled (Return client) →
  getClient_resume promise σ = Some σ' →
  getClient (att_server a) σ' = (Now (Return client), σ').
Proof.
  intros Ha Hp Hr. unfold getClient_resume in Hr.
  rewrite Ha in Hr. simpl in Hr.
  destruct (att_parked a); [|done]. rewrite Hp in Hr. injection Hr as <-.
  unfold getClient. simpl. by rewrite lookup_insert_eq.
Qed.

Lemma connect_calls_snoc s σ a cs cn cl :
  connect_calls s {| clients := cs; connecting := cn;
                     attempts := attempts σ ++ [a]; closed := cl |}
  = connect_calls s σ + (if decide (att_server a = s) then 1 else 0).
Proof.
  unfold connect_calls. simpl. rewrite filter_app, length_app. f_equal.
  rewrite filter_cons. simpl. by destruct (decide (att_server a = s)).
Qed.

End Pool.

End Cached.

(** ** The eager plugin *)

Module Eager.

Section Plugin.

Variable JSON_stringify : json → string.
Variable callTool : Client → string → json → completion json.

(** [[tool.description ?? `MCP tool from ${serverName}`,
      prefix ? `(MCP: ${serverName}/${mcpToolName})` : `(MCP: ${serverName})`].join(" ")] *)
Definition tool_description (serverName : string) (prefix : bool) (tool : CachedTool)
  : string :=
  default ("MCP tool from " +:+ serverName) (description tool)
  +:+ " "
  +:+ (if prefix
       then "(MCP: " +:+ serverName +:+ "/" +:+ name tool +:+ ")"
       else "(MCP: " +:+ serverName +:+ ")").

Definition register_tool (serverName : string) (prefix optionalTools : bool)
    (tool : CachedTool) : Registration :=
  {| reg_name := sanitizeToolName serverName (name tool) prefix;
     reg_description := tool_description serverName prefix tool;
     reg_parameters := default empty_object_schema (inputSchema tool);
     reg_server := serverName;
     reg_tool := name tool;
     reg_optional := optionalTools |}.

(** The loop of [connectServer] over the tools the server listed. *)
Definition register_tools (serverName : string) (serverConfig : ServerConfig)
    (optionalTools : bool) (tools : list CachedTool) : list Registration :=
  let prefix := negb (bool_decide (toolPrefix serverConfig = Some false)) in
  register_tool serverName prefix optionalTools <$> tools.

(** [execute] reads the [clients] map and never connects. *)
Definition execute (clients : gmap string Client) (serverName mcpToolName : string)
    (params : json) : completion ToolResult :=
  match clients !! serverName with
  | None =>
      Return {| content := JArray [text_item ("Error: MCP server '" +:+ serverName
                                               +:+ "' is not connected")];
                isError := true |}
  | Some serverClient =>
      try_catch
        (result ← callTool serverClient mcpToolName params;
         success_result JSON_stringify result)
        (failure_result serverName mcpToolName)
  end.

End Plugin.

End Eager.

(** * The name resolver *)

(** C5: [sanitizeToolName] is a function of its three arguments (equal
    arguments give equal results), its character transform [sanitize] is
    idempotent, and server "Linear API" with tool "list-issues" gives
    "linear_api_list_issues" with the prefix and "list_issues" without. *)
Theorem sanitizeToolName_deterministic_idempotent :
  (∀ serverName toolName prefix serverName' toolName' prefix',
      serverName = serverName' → toolName = toolName' → prefix = prefix' →
      sanitizeToolName serverName toolName prefix
      = sanitizeToolName serverName' toolName' prefix')
  ∧ (∀ x, sanitize (sanitize x) = sanitize x)
  ∧ sanitizeToolName "Linear API" "list-issues" true = "linear_api_list_issues"
  ∧ sanitizeToolName "Linear API" "list-issues" false = "list_issues".
Proof.
  split_and!.
  - by intros * -> -> ->.
  - apply sanitize_idempotent.
  - reflexivity.
  - reflexivity.
Qed.

Lemma sanitizeToolName_deterministic_idempotent_witness :
  sanitizeToolName "ai-todo" "list_tasks" true = sanitizeToolName "ai-todo" "list_tasks" true
  ∧ sanitize (sanitize "My  Server!") = sanitize "My  Server!".
Proof.
  destruct sanitizeToolName_deterministic_idempotent as (Hdet & Hidem & _).
  split.
  - apply Hdet; reflexivity.
  - apply Hidem.
Defined.







(** * Registration *)

Lemma elem_of_register_tools servers optionalTools entries r :
  r ∈ Cached.register_tools servers optionalTools entries ↔
  ∃ cacheEntry serverConfig tool,
    cacheEntry ∈ entries ∧ tool ∈ tools cacheEntry
    ∧ servers !! server cacheEntry = Some serverConfig
    ∧ enabled serverConfig ≠ Some false
    ∧ r = Cached.register_tool (server cacheEntry)
            (negb (bool_decide (toolPrefix serverConfig = Some false)))
            optionalTools tool.
Proof.
  unfold Cached.register_tools. rewrite list_elem_of_bind. split.
  - intros (cacheEntry & Hr & He).
    unfold Cached.register_entry in Hr.
    destruct (servers !! server cacheEntry) as [serverConfig|] eqn:Hcfg;
      [|by apply elem_of_nil in Hr].
    destruct (decide (enabled serverConfig = Some false)); [by apply elem_of_nil in Hr|].
    apply list_elem_of_fmap in Hr as (tool & -> & Ht).
    by exists cacheEntry, serverConfig, tool.
  - intros (cacheEntry & serverConfig & tool & He & Ht & Hcfg & Hen & ->).
    exists cacheEntry. split; [|done].
    unfold Cached.register_entry. rewrite Hcfg.
    destruct (decide (enabled serverConfig = Some false)); [done|].
    apply list_elem_of_fmap. by exists tool.
Qed.

(** A handler is only ever registered for a server that has a
    configuration: the names [getClient] is called with are keys of
    [servers]. *)
Lemma registered_server_configured servers optionalTools entries r :
  r ∈ Cached.register_tools servers optionalTools entries →
  is_Some (servers !! reg_server r).
Proof.
  intros (cacheEntry & serverConfig & tool & _ & _ & Hcfg & _ & ->)%elem_of_register_tools.
  by exists serverConfig.
Qed.

(** C10: the local name is not always a usable identifier.  When the
    remote name has no character of [[A-Za-z0-9_]], the name without
    prefix is empty; when the server name has none, the name with prefix
    starts with an underscore, the concatenation not being sanitized
    again; and [register] hands the name to [registerTool] as it is. *)
Theorem sanitizeToolName_degenerate :
  (∀ serverName remoteName,
      all_chars (λ c, negb (is_word_char c)) remoteName = true →
      sanitizeToolName serverName remoteName false = EmptyString)
  ∧ (∀ serverName remoteName,
      all_chars (λ c, negb (is_word_char c)) serverName = true →
      sanitizeToolName serverName remoteName true = String "_" (sanitize remoteName))
  ∧ (∀ servers optionalTools entries r,
      r ∈ Cached.register_tools servers optionalTools entries →
      ∃ serverConfig,
        servers !! reg_server r = Some serverConfig
        ∧ reg_name r
          = sanitizeToolName (reg_server r) (reg_tool r)
              (negb (bool_decide (toolPrefix serverConfig = Some false)))).
Proof.
  split_and!.
  - intros serverName remoteName H. simpl. by apply sanitize_no_word_char.
  - intros serverName remoteName H. simpl. by rewrite (sanitize_no_word_char _ H).
  - intros servers optionalTools entries r
      (cacheEntry & serverConfig & tool & _ & _ & Hcfg & _ & ->)%elem_of_register_tools.
    by exists serverConfig.
Qed.

(** Sample data: one spawned server, with and without the name prefix. *)
Definition todo_config (prefix : option bool) : ServerConfig :=
  {| command := Some "ai-todo"; args := Some ["serve"; "--root"; "${ROOT}"];
     env := None; url := None; headers := None;
     enabled := None; toolPrefix := prefix |}.

Definition dashes_tool : CachedTool :=
  {| name := "---"; description := None; inputSchema := None |}.

Definition dashes_entry : CacheEntry :=
  {| server := "todo"; tools := [dashes_tool]; discoveredAt := "2025-01-01T00:00:00.000Z" |}.

Example empty_name_registered :
  reg_name <$> Cached.register_tools {[ "todo" := todo_config (Some false) ]} false [dashes_entry]
  = [EmptyString].
Proof. reflexivity. Qed.

Lemma sanitizeToolName_degenerate_witness :
  sanitizeToolName "todo" "---" false = EmptyString
  ∧ sanitizeToolName "!?" "ping" true = String "_" (sanitize "ping")
  ∧ ∃ serverConfig,
      ({[ "todo" := todo_config (Some false) ]} : gmap string ServerConfig) !! "todo"
      = Some serverConfig
      ∧ reg_name (Cached.register_tool "todo" false false dashes_tool)
        = sanitizeToolName "todo" "---"
            (negb (bool_decide (toolPrefix serverConfig = Some false))).
Proof.
  destruct sanitizeToolName_degenerate as (Hempty & Hlead & Hreg).
  split_and!.
  - by apply Hempty.
  - by apply Hlead.
  - apply (Hreg {[ "todo" := todo_config (Some false) ]} false [dashes_entry]
             (Cached.register_tool "todo" false false dashes_tool)).
    apply list_elem_of_In. vm_compute. by left.
Defined.

(** ** The persisted catalog *)

(** The two members of the document that [loadCache] looks at. *)
Definition version_tag (doc : json) : option json :=
  match doc with
  | JObject fields => lookup_field "version" fields
  | _ => None
  end.

Definition servers_field (doc : json) : option json :=
  match doc with
  | JObject fields => lookup_field "servers" fields
  | _ => None
  end.

(** What [register] leaves behind when there is no usable cache: nothing
    registered, one warning, no service. *)
Definition degraded_startup : Cached.Startup :=
  {| Cached.registered := []; Cached.warnings := [Cached.no_cache_warning];
     Cached.infos := []; Cached.service := false |}.

Lemma loadCache_rejects JSON_parse raw doc :
  JSON_parse raw = Return doc →
  version_tag doc ≠ Some (JNumber 1) ∨ (∀ entries, servers_field doc ≠ Some (JArray entries)) →
  Cached.loadCache JSON_parse (Return raw) = Return None.
Proof.
  intros Hparse Hbad. unfold Cached.loadCache. simpl. rewrite Hparse. simpl.
  destruct doc as [|b|n|s|items|fields]; try done. simpl in *.
  destruct (lookup_field "version" fields) as [[|b|n|s|items|fs]|] eqn:Hv; try done.
  simpl. destruct n as [|[q|q|]|q]; try done.
  simpl. destruct Hbad as [Hbad|Hbad]; [done|].
  destruct (lookup_field "servers" fields) as [[|b|n|s|items|fs]|] eqn:Hs; try done.
  by destruct (Hbad items).
Qed.

(** [loadCache] catches whatever reading and parsing throw, and so does
    not throw; neither does [register]. *)
Lemma loadCache_returns JSON_parse file :
  ∃ cache, Cached.loadCache JSON_parse file = Return cache.
Proof.
  unfold Cached.loadCache. destruct file as [raw|e]; simpl; [|by eexists].
  destruct (JSON_parse raw) as [doc|e]; simpl; [|by eexists].
  destruct (property doc "version") as [version|e]; simpl; [|by eexists].
  destruct (Cached.version_is_not_1 version); simpl; [by eexists|].
  destruct (property doc "servers") as [servers|e]; simpl; [|by eexists].
  destruct (negb (Cached.isArray servers)); by eexists.
Qed.

Lemma register_returns JSON_parse config file c :
  Cached.register JSON_parse config file = Some c → ∃ startup, c = Return startup.
Proof.
  unfold Cached.register.
  destruct (loadCache_returns JSON_parse file) as [cache ->].
  destruct cache as [cache|]; [|intros [= <-]; by eexists].
  destruct (Cached.cache_servers cache) as [[|entry entries]|]; simpl;
    [| |done]; intros [= <-]; by eexists.
Qed.

(** C7: when the cache document carries a version tag other than the
    number 1, or a [servers] member that is not an array, [loadCache]
    returns [null] and [register] ends as it does without a cache file:
    it returns normally, with no tool registered and a warning logged. *)
Theorem register_rejects_bad_cache JSON_parse config raw doc :
  JSON_parse raw = Return doc →
  version_tag doc ≠ Some (JNumber 1) ∨ (∀ entries, servers_field doc ≠ Some (JArray entries)) →
  Cached.loadCache JSON_parse (Return raw) = Return None
  ∧ Cached.register JSON_parse config (Return raw) = Some (Return degraded_startup)
  ∧ ∀ enoent, Cached.register JSON_parse config (Throw enoent)
              = Cached.register JSON_parse config (Return raw).
Proof.
  intros Hparse Hbad.
  pose proof (loadCache_rejects _ _ _ Hparse Hbad) as Hload.
  split_and!; [done| |intros enoent]; unfold Cached.register; by rewrite Hload.
Qed.

Definition version_2_document : json :=
  JObject [("version", JNumber 2);
           ("servers", JArray [JObject [("server", JString "todo");
                                        ("tools", JArray [JObject [("name", JString "list_tasks")]]);
                                        ("discoveredAt", JString "2025-01-01T00:00:00.000Z")]])].

Lemma register_rejects_bad_cache_witness :
  Cached.loadCache (λ _, Return version_2_document) (Return "{}") = Return None
  ∧ Cached.register (λ _, Return version_2_document) None (Return "{}")
    = Some (Return degraded_startup)
  ∧ ∀ enoent, Cached.register (λ _, Return version_2_document) None (Throw enoent)
              = Cached.register (λ _, Return version_2_document) None (Return "{}").
Proof.
  apply (register_rejects_bad_cache (λ _, Return version_2_document) None "{}"
           version_2_document).
  - reflexivity.
  - left. discriminate.
Defined.

Example register_reports_counts :
  Cached.infos <$>
    (Cached.register
       (λ _, Return (JObject [("version", JNumber 1);
                              ("servers", default JNull (servers_field version_2_document))]))
       (Some {| Cached.servers := Some {[ "todo" := todo_config None ]};
                Cached.optional := None |})
       (Return "{}") ≫= λ c, match c with Return s => Some s | Throw _ => None end)
  = Some ["mcp-bridge: registered 1 tool(s) from 1 server(s)"].
Proof. reflexivity. Qed.

(** The same document with the version tag 1 is accepted. *)
Example register_accepts_version_1 :
  Cached.registered <$>
    (Cached.register
       (λ _, Return (JObject [("version", JNumber 1);
                              ("servers", default JNull (servers_field version_2_document))]))
       (Some {| Cached.servers := Some {[ "todo" := todo_config None ]};
                Cached.optional := None |})
       (Return "{}") ≫= λ c, match c with Return s => Some s | Throw _ => None end)
  = Some [ {| reg_name := "todo_list_tasks";
              reg_description := "MCP tool from todo (MCP: todo/list_tasks)";
              reg_parameters := empty_object_schema;
              reg_server := "todo"; reg_tool := "list_tasks";
              reg_optional := false |} ].
Proof. reflexivity. Qed.

(** ** Descriptions *)







Definition ping_tool : CachedTool :=
  {| name := "ping"; description := None; inputSchema := None |}.




(** * The invocation handler *)



Lemma success_result_returns JSON_stringify result :
  result ≠ JNull → ∃ r, success_result JSON_stringify result = Return r.
Proof. intros H. destruct result; try done; by eexists. Qed.


(** ** Successful calls *)

(** [result.k] on a result that is not [null]. *)
Definition member (result : json) (k : string) : option json :=
  match result with
  | JObject fields => lookup_field k fields
  | _ => None
  end.

(** The single text item that wraps the stringified result. *)
Definition wrapped (JSON_stringify : json → string) (result : json) : json :=
  JArray [text_item (JSON_stringify result)].

(** The content as the specification words it: the remote content when
    it is a content array, the wrapped result otherwise. *)
Definition spec_content (JSON_stringify : json → string) (result : json) : json :=
  match member result "content" with
  | Some (JArray items) => JArray items
  | _ => wrapped JSON_stringify result
  end.

Definition plain_string_result : json := JObject [("content", JString "done")].

(** A remote content that is present but is not an array is passed
    through as it is, not wrapped. *)
Lemma content_passed_through_when_not_array :
  ∃ r, Cached.execute (λ _, "{...}") (λ _ _ _, Return plain_string_result)
                      "srv" "ping" (Return 0) (JObject []) = Return r
       ∧ content r = JString "done"
       ∧ content r ≠ spec_content (λ _, "{...}") plain_string_result.
Proof. eexists. split; [reflexivity|]. split; [reflexivity | discriminate]. Qed.

(** C4, amended: for a remote result that is not [null], the handler of
    either plugin returns the remote [content] unchanged whenever that
    member is present and not [null] -- an array or not -- and the single
    text item wrapping the stringified result when it is absent or
    [null]; [isError] is [true] exactly when the remote [isError] is the
    boolean [true]. *)
Theorem execute_normalizes_result JSON_stringify callTool serverName mcpToolName
    params client result :
  callTool client mcpToolName params = Return result →
  result ≠ JNull →
  ∃ r,
    Cached.execute JSON_stringify callTool serverName mcpToolName (Return client) params
    = Return r
    ∧ (∀ clients, clients !! serverName = Some client →
         Eager.execute JSON_stringify callTool clients serverName mcpToolName params
         = Return r)
    ∧ (∀ v, member result "content" = Some v → v ≠ JNull → content r = v)
    ∧ (member result "content" = None ∨ member result "content" = Some JNull →
         content r = wrapped JSON_stringify result)
    ∧ (isError r = true ↔ member result "isError" = Some (JBool true)).
Proof.
  intros Hcall Hnull.
  exists {| content := nullish_or (member result "content") (wrapped JSON_stringify result);
            isError := is_true (member result "isError") |}.
  assert (Hs : success_result JSON_stringify result
               = Return {| content := nullish_or (member result "content")
                                        (wrapped JSON_stringify result);
                           isError := is_true (member result "isError") |})
    by by destruct result.
  split_and!.
  - unfold Cached.execute. simpl. by rewrite Hcall; simpl; rewrite Hs.
  - intros clients Hc. unfold Eager.execute. rewrite Hc. simpl.
    by rewrite Hcall; simpl; rewrite Hs.
  - intros v -> Hv. simpl. by destruct v.
  - simpl. by intros [-> | ->].
  - simpl. destruct (member result "isError") as [[|[]| | | |]|]; simpl; split; congruence.
Qed.

Definition array_result : json :=
  JObject [("content", JArray [text_item "3 tasks"]); ("isError", JBool false)].

Lemma execute_normalizes_result_witness :
  ∃ r,
    Cached.execute (λ _, "{...}") (λ _ _ _, Return array_result) "todo" "list_tasks"
                   (Return 0) (JObject [])
    = Return r
    ∧ (∀ clients : gmap string Client, clients !! "todo" = Some 0 →
         Eager.execute (λ _, "{...}") (λ _ _ _, Return array_result) clients
                       "todo" "list_tasks" (JObject [])
         = Return r)
    ∧ (∀ v, member array_result "content" = Some v → v ≠ JNull → content r = v)
    ∧ (member array_result "content" = None ∨ member array_result "content" = Some JNull →
         content r = wrapped (λ _, "{...}") array_result)
    ∧ (isError r = true ↔ member array_result "isError" = Some (JBool true)).
Proof.
  apply (execute_normalizes_result (λ _, "{...}") (λ _ _ _, Return array_result)
           "todo" "list_tasks" (JObject []) 0 array_result).
  - reflexivity.
  - discriminate.
Defined.

(** * The connection pool *)

Import Cached.

(** While an attempt is in flight, a call for its server joins it and
    leaves the pool as it is; no second attempt for the server is in
    flight. *)
Lemma getClient_joins_attempt process_env servers σ promise a :
  pool_inv σ → attempts σ !! promise = Some a → att_parked a = true →
  getClient process_env servers (att_server a) σ = (Follows promise, σ).
Proof.
  intros Hinv Ha Hpk. pose proof (inv_parked _ Hinv _ _ Ha Hpk) as Hcon.
  apply getClient_pending; [|done].
  destruct (clients σ !! att_server a) as [c|] eqn:Hc; [|done].
  pose proof (inv_exclusive _ Hinv _ _ Hc). congruence.
Qed.

Lemma attempt_in_flight_unique σ p1 a1 p2 a2 :
  pool_inv σ →
  attempts σ !! p1 = Some a1 → att_parked a1 = true →
  attempts σ !! p2 = Some a2 → att_parked a2 = true →
  att_server a1 = att_server a2 → p1 = p2.
Proof.
  intros Hinv H1 Hk1 H2 Hk2 Hs.
  pose proof (inv_parked _ Hinv _ _ H1 Hk1) as Hc1.
  pose proof (inv_parked _ Hinv _ _ H2 Hk2) as Hc2.
  rewrite Hs in Hc1. congruence.
Qed.

(** C1: for a configured server with neither a client nor an attempt in
    flight, any number of [getClient] calls that all start before the
    first one continues make [connectServer] run exactly once -- once for
    this server and once in all -- and every caller's promise settles
    with the outcome of that one attempt: the same client, or the same
    error.  Under every schedule, a call that meets an attempt in flight
    for its server follows that attempt without touching the pool, and
    no server has two attempts in flight. *)
Theorem getClient_calls_share_one_attempt process_env servers σ serverName serverConfig
    before after failure :
  servers !! serverName = Some serverConfig →
  clients σ !! serverName = None →
  connecting σ !! serverName = None →
  (∃ σ' handles o,
      run process_env servers
          (concurrent_calls process_env serverName serverConfig before after
                            (length (attempts σ)) failure) σ
      = Some (σ', handles)
      ∧ length handles = S before + after
      ∧ connect_calls serverName σ' = S (connect_calls serverName σ)
      ∧ length (attempts σ') = S (length (attempts σ))
      ∧ Forall (λ h, outcome σ' h = Some o) handles
      ∧ o = attempt_outcome process_env serverName serverConfig (length (attempts σ)) failure
      ∧ connecting σ' !! serverName = None)
  ∧ (∀ σ2 promise a,
      reachable process_env servers σ2 →
      attempts σ2 !! promise = Some a → att_server a = serverName → att_parked a = true →
      getClient process_env servers serverName σ2 = (Follows promise, σ2)
      ∧ ∀ promise' a', attempts σ2 !! promise' = Some a' →
                       att_server a' = serverName → att_parked a' = true →
                       promise' = promise).
Proof.
  intros Hcfg Hc Hp. split.
  - exists (after_calls process_env serverName serverConfig failure σ),
           (replicate (S before + after) (Follows (length (attempts σ)))),
           (attempt_outcome process_env serverName serverConfig (length (attempts σ)) failure).
    split_and!.
    + by apply concurrent_calls_run.
    + apply length_replicate.
    + rewrite connect_calls_after_calls. rewrite decide_True by done. lia.
    + unfold after_calls. simpl. rewrite length_app. simpl. lia.
    + apply Forall_replicate. apply outcome_after_calls.
    + done.
    + done.
  - intros σ2 promise a Hinv%reachable_inv Ha <- Hpk. split.
    + by apply getClient_joins_attempt.
    + intros promise' a' Ha' Hs' Hpk'. by eapply attempt_in_flight_unique.
Qed.

Definition sample_env : gmap string string := {[ "ROOT" := "/work" ]}.
Definition sample_servers : gmap string ServerConfig := {[ "todo" := todo_config None ]}.

Lemma getClient_calls_share_one_attempt_witness :
  ∃ σ' handles o,
    run sample_env sample_servers
        (concurrent_calls sample_env "todo" (todo_config None) 2 1
                          (length (attempts initial)) None) initial
    = Some (σ', handles)
    ∧ length handles = 3 + 1
    ∧ connect_calls "todo" σ' = S (connect_calls "todo" initial)
    ∧ length (attempts σ') = S (length (attempts initial))
    ∧ Forall (λ h, outcome σ' h = Some o) handles
    ∧ o = attempt_outcome sample_env "todo" (todo_config None)
                          (length (attempts initial)) None
    ∧ connecting σ' !! "todo" = None.
Proof.
  apply (getClient_calls_share_one_attempt sample_env sample_servers initial "todo"
           (todo_config None) 2 1 None).
  - reflexivity.
  - reflexivity.
  - reflexivity.
Defined.

(** Four calls, one attempt: the schedule of the witness, computed. *)
Example four_calls_one_client :
  match run sample_env sample_servers
          [Call "todo"; Call "todo"; Call "todo"; Settle 0 None; Call "todo"; Resume 0]
          initial with
  | Some (σ, hs) => Some (length (attempts σ), map (outcome σ) hs)
  | None => None
  end
  = Some (1, replicate 4 (Some (Return 0))).
Proof. reflexivity. Qed.

(** A name without configuration never reaches [connectServer]. *)
Example unknown_server_throws :
  match run sample_env sample_servers [Call "ghost"; Call "ghost"] initial with
  | Some (σ, hs) => Some (length (attempts σ), map (outcome σ) hs)
  | None => None
  end
  = Some (0, replicate 2 (Some (Throw (Error "No config for MCP server 'ghost'")))).
Proof. reflexivity. Qed.

(** C3: in a reachable pool, a [getClient] call whose promise is settled
    when it returns, and a promise that becomes settled by a step, leave
    no entry for the server in [connecting]; and once the continuation
    behind a rejected promise has run, the next call for that server
    calls [connectServer] again. *)
Theorem getClient_clears_pending process_env servers σ :
  reachable process_env servers σ →
  (∀ serverName h σ',
      getClient process_env servers serverName σ = (h, σ') →
      is_Some (outcome σ' h) → connecting σ' !! serverName = None)
  ∧ (∀ e σ' handles promise a,
      step process_env servers e σ = Some (σ', handles) →
      attempts σ !! promise = Some a →
      outcome σ (Follows promise) = None →
      is_Some (outcome σ' (Follows promise)) →
      connecting σ' !! att_server a = None)
  ∧ (∀ promise a err σ' serverConfig,
      attempts σ !! promise = Some a →
      att_promise a = Settled (Throw err) →
      getClient_resume promise σ = Some σ' →
      servers !! att_server a = Some serverConfig →
      clients σ' !! att_server a = None ∧ connecting σ' !! att_server a = None
      ∧ ∃ σ'', getClient process_env servers (att_server a) σ'
               = (Follows (length (attempts σ')), σ'')
               ∧ attempts σ''
                 = attempts σ' ++ [connectServer process_env (att_server a) serverConfig]
               ∧ connect_calls (att_server a) σ'' = S (connect_calls (att_server a) σ')).
Proof.
  intros Hinv%reachable_inv. split_and!.
  - intros serverName h σ'. by apply getClient_settled_clears.
  - intros e σ' handles promise a. by apply step_settled_clears.
  - intros promise a err σ' serverConfig Ha Hp Hr Hcfg.
    destruct (getClient_retry process_env servers _ _ _ _ _ _ Hinv Ha Hp Hr Hcfg)
      as (Hc & Hp' & Hg).
    split_and!; [done | done |].
    eexists. split_and!; [exact Hg | done |].
    rewrite connect_calls_snoc. simpl. rewrite decide_True by done. lia.
Qed.

Definition spawn_error : thrown := Error "spawn ai-todo ENOENT".

(** The pool while a failed attempt still waits for its continuation,
    and the pool after that continuation. *)
Definition failed_attempt : Attempt :=
  {| att_server := "todo";
     att_transport := connectServer_transport sample_env (todo_config None);
     att_promise := Settled (Throw spawn_error);
     att_parked := true |}.

Definition failed_pool : Pool :=
  {| clients := ∅; connecting := {[ "todo" := 0 ]};
     attempts := [failed_attempt]; closed := [] |}.

Definition retry_pool : Pool :=
  {| clients := ∅; connecting := ∅;
     attempts := [unpark failed_attempt]; closed := [] |}.

Lemma failed_pool_reachable : reachable sample_env sample_servers failed_pool.
Proof.
  exists [Call "todo"; Call "todo"; Settle 0 (Some spawn_error)], [Follows 0; Follows 0].
  vm_compute. reflexivity.
Defined.

Lemma getClient_clears_pending_witness :
  connecting retry_pool !! "todo" = None
  ∧ clients retry_pool !! "todo" = None ∧ connecting retry_pool !! "todo" = None
  ∧ ∃ σ'', getClient sample_env sample_servers "todo" retry_pool = (Follows 1, σ'')
           ∧ attempts σ'' = attempts retry_pool
                            ++ [connectServer sample_env "todo" (todo_config None)]
           ∧ connect_calls "todo" σ'' = S (connect_calls "todo" retry_pool).
Proof.
  destruct (getClient_clears_pending sample_env sample_servers failed_pool
              failed_pool_reachable) as (_ & Hstep & Hretry).
  split.
  - apply (Hstep (Resume 0) retry_pool [] 0 failed_attempt); vm_compute; eauto.
  - apply (Hretry 0 failed_attempt spawn_error retry_pool (todo_config None));
      vm_compute; reflexivity.
Defined.

(** * The invariant of the pool *)

Inductive SessionState :=
| NoSession
| LiveSession
| PendingConnection.

(** Which of the three holds of [serverName] in the pool [σ]. *)
Definition holds (σ : Pool) (serverName : string) (st : SessionState) : Prop :=
  match st with
  | NoSession => clients σ !! serverName = None ∧ connecting σ !! serverName = None
  | LiveSession => is_Some (clients σ !! serverName)
  | PendingConnection => is_Some (connecting σ !! serverName)
  end.

(** C9: after any schedule of [getClient] calls, settled attempts,
    continuations and turns of [stop], a server is in at most one of the
    three states; [clients] and [connecting] never both hold an entry for
    it. *)
Theorem pool_states_exclusive process_env servers script σ handles serverName :
  run process_env servers script initial = Some (σ, handles) →
  (∀ st1 st2, holds σ serverName st1 → holds σ serverName st2 → st1 = st2)
  ∧ ¬ (is_Some (clients σ !! serverName) ∧ is_Some (connecting σ !! serverName)).
Proof.
  intros Hrun.
  assert (Hinv : pool_inv σ) by (eapply run_inv; [done | apply pool_inv_initial]).
  assert (Hex : ¬ (is_Some (clients σ !! serverName) ∧ is_Some (connecting σ !! serverName))).
  { intros [[c Hc] [p Hp]]. pose proof (inv_exclusive _ Hinv _ _ Hc). congruence. }
  split; [|done].
  intros st1 st2 H1 H2.
  destruct st1, st2; simpl in *; try done.
  - destruct H1 as [H1 _], H2 as [c H2]. congruence.
  - destruct H1 as [_ H1], H2 as [p H2]. congruence.
  - destruct H2 as [H2 _], H1 as [c H1]. congruence.
  - by destruct Hex.
  - destruct H2 as [_ H2], H1 as [p H1]. congruence.
  - by destruct Hex.
Qed.

Definition busy_schedule : list event :=
  [Call "todo"; Call "todo"; Settle 0 None; Resume 0; StopClose "todo"; Call "todo";
   StopClear; Call "todo"; Call "ghost"; Settle 1 (Some spawn_error); Call "todo";
   Resume 1; Call "todo"].

Definition busy_pool : Pool :=
  {| clients := ∅; connecting := {[ "todo" := 2 ]};
     attempts :=
       [ {| att_server := "todo";
            att_transport := connectServer_transport sample_env (todo_config None);
            att_promise := Settled (Return 0); att_parked := false |};
         unpark failed_attempt;
         connectServer sample_env "todo" (todo_config None) ];
     closed := [0] |}.

Lemma pool_states_exclusive_witness :
  (∀ st1 st2, holds busy_pool "todo" st1 → holds busy_pool "todo" st2 → st1 = st2)
  ∧ ¬ (is_Some (clients busy_pool !! "todo") ∧ is_Some (connecting busy_pool !! "todo")).
Proof.
  apply (pool_states_exclusive sample_env sample_servers busy_schedule busy_pool
           [Follows 0; Follows 0; Now (Return 0); Follows 1;
            Now (Throw (Error "No config for MCP server 'ghost'")); Follows 1; Follows 2]).
  vm_compute. reflexivity.
Defined.

(** * Further properties of the name resolver *)

Lemma all_chars_append P a b :
  all_chars P (a +:+ b) = all_chars P a && all_chars P b.
Proof.
  induction a as [|c a IH]; simpl; [done|]. by rewrite IH, andb_assoc.
Qed.

Lemma starts_with_underscore_append a b :
  a ≠ EmptyString → starts_with_underscore (a +:+ b) = starts_with_underscore a.
Proof. by destruct a. Qed.

Lemma ends_with_underscore_append a b :
  b ≠ EmptyString → ends_with_underscore (a +:+ b) = ends_with_underscore b.
Proof.
  intros Hb. induction a as [|c a IH]; [done|].
  change (String c a +:+ b) with (String c (a +:+ b)).
  destruct (a +:+ b) as [|d u] eqn:E.
  - destruct a; [simpl in E; congruence | discriminate].
  - simpl. by rewrite <- IH.
Qed.

Lemma no_run_append a b :
  no_run a = true → no_run b = true →
  ends_with_underscore a && starts_with_underscore b = false →
  no_run (a +:+ b) = true.
Proof.
  induction a as [|c a IH]; [done|].
  intros Ha Hb Hjoin. simpl in Ha. apply andb_true_iff in Ha as [Hc Ha].
  change (String c a +:+ b) with (String c (a +:+ b)). cbn [no_run].
  destruct a as [|d u].
  - simpl in *. by rewrite Hjoin, Hb.
  - rewrite IH; [|done|done|exact Hjoin].
    rewrite andb_true_r. exact Hc.
Qed.

Lemma clean_parts s :
  clean s = true →
  all_chars is_lower_word_char s = true ∧ no_run s = true
  ∧ starts_with_underscore s = false ∧ ends_with_underscore s = false.
Proof.
  unfold clean. rewrite !andb_true_iff, !negb_true_iff. tauto.
Qed.

(** X1: every local name consists of lower-case letters, digits and
    underscores only, with no two underscores side by side; a name made
    without prefix moreover neither starts nor ends with an underscore. *)
Theorem sanitizeToolName_shape serverName toolName prefix :
  all_chars is_lower_word_char (sanitizeToolName serverName toolName prefix) = true
  ∧ no_run (sanitizeToolName serverName toolName prefix) = true
  ∧ (prefix = false →
     starts_with_underscore (sanitizeToolName serverName toolName prefix) = false
     ∧ ends_with_underscore (sanitizeToolName serverName toolName prefix) = false).
Proof.
  destruct (clean_parts _ (sanitize_clean serverName)) as (Hsa & Hsn & Hss & Hse).
  destruct (clean_parts _ (sanitize_clean toolName)) as (Hta & Htn & Hts & Hte).
  destruct prefix; simpl.
  - split_and!; [| |done].
    + by rewrite all_chars_append, Hsa; simpl; rewrite Hta.
    + apply no_run_append; [done| |by rewrite Hse].
      simpl. by rewrite Hts, Htn.
  - by split_and!.
Qed.

Lemma sanitizeToolName_shape_witness :
  starts_with_underscore (sanitizeToolName "My Server" "--list.tasks--" false) = false
  ∧ ends_with_underscore (sanitizeToolName "My Server" "--list.tasks--" false) = false.
Proof.
  by apply (proj2 (proj2 (sanitizeToolName_shape "My Server" "--list.tasks--" false))).
Defined.

Lemma collapse_length s : String.length (collapse_underscores s) ≤ String.length s.
Proof.
  induction s as [|c t IH]; simpl; [done|].
  destruct (is_underscore c && starts_with_underscore t); simpl; lia.
Qed.

Lemma strip_trailing_length s : String.length (strip_trailing s) ≤ String.length s.
Proof.
  induction s as [|c t IH]; [done|].
  destruct t as [|d u].
  - simpl. destruct (is_underscore c); simpl; lia.
  - change (strip_trailing (String c (String d u)))
      with (String c (strip_trailing (String d u))).
    simpl in *. lia.
Qed.

Lemma strip_leading_length s : String.length (strip_leading s) ≤ String.length s.
Proof. destruct s as [|c t]; simpl; [done|]. destruct (is_underscore c); simpl; lia. Qed.

Lemma replace_non_word_length s : String.length (replace_non_word s) = String.length s.
Proof. induction s as [|c t IH]; simpl; [done | by rewrite IH]. Qed.

Lemma toLowerCase_length s : String.length (toLowerCase s) = String.length s.
Proof. induction s as [|c t IH]; simpl; [done | by rewrite IH]. Qed.

Lemma sanitize_length s : String.length (sanitize s) ≤ String.length s.
Proof.
  unfold sanitize, strip_ends. rewrite toLowerCase_length.
  etrans; [apply strip_trailing_length|].
  etrans; [apply strip_leading_length|].
  etrans; [apply collapse_length|].
  by rewrite replace_non_word_length.
Qed.

Lemma length_append (a b : string) :
  String.length (a +:+ b) = String.length a + String.length b.
Proof. induction a as [|c a IH]; simpl; [done | by rewrite IH]. Qed.

(** X2: a local name is never longer than the remote name it is made
    from, plus the server name and one underscore when it is prefixed. *)
Theorem sanitizeToolName_length serverName toolName prefix :
  String.length (sanitizeToolName serverName toolName prefix)
  ≤ (if prefix then String.length serverName + 1 else 0) + String.length toolName.
Proof.
  pose proof (sanitize_length serverName). pose proof (sanitize_length toolName).
  destruct prefix; simpl; [|done].
  rewrite length_append. simpl. lia.
Qed.

Lemma collapse_toLowerCase s :
  collapse_underscores (toLowerCase s) = toLowerCase (collapse_underscores s).
Proof.
  induction s as [|c t IH]; simpl; [done|].
  rewrite lower_char_underscore, toLowerCase_starts.
  destruct (is_underscore c && starts_with_underscore t); simpl; by rewrite IH.
Qed.

Lemma strip_leading_toLowerCase s :
  strip_leading (toLowerCase s) = toLowerCase (strip_leading s).
Proof.
  destruct s as [|c t]; simpl; [done|].
  rewrite lower_char_underscore. by destruct (is_underscore c).
Qed.

Lemma strip_trailing_toLowerCase s :
  strip_trailing (toLowerCase s) = toLowerCase (strip_trailing s).
Proof.
  induction s as [|c t IH]; [done|].
  destruct t as [|d u].
  - simpl. rewrite lower_char_underscore. by destruct (is_underscore c).
  - change (strip_trailing (String c (String d u)))
      with (String c (strip_trailing (String d u))).
    simpl in *. by rewrite IH.
Qed.

Lemma sanitize_lower_first s :
  sanitize s = strip_ends (collapse_underscores (toLowerCase (replace_non_word s))).
Proof.
  unfold sanitize, strip_ends.
  by rewrite collapse_toLowerCase, strip_leading_toLowerCase, strip_trailing_toLowerCase.
Qed.

(** X3: the local name does not tell apart remote names that differ only
    in the case of their letters or in which characters outside
    [[A-Za-z0-9_]] separate their words: such names collide. *)
Theorem sanitize_collides (a b serverName : string) (prefix : bool) :
  toLowerCase (replace_non_word a) = toLowerCase (replace_non_word b) →
  sanitizeToolName serverName a prefix = sanitizeToolName serverName b prefix.
Proof.
  intros H.
  assert (sanitize a = sanitize b) as Hs by by rewrite !sanitize_lower_first, H.
  unfold sanitizeToolName. by rewrite Hs.
Qed.

Lemma sanitize_collides_witness :
  sanitizeToolName "linear" "list-issues" true
  = sanitizeToolName "linear" "List.Issues" true.
Proof. apply (sanitize_collides "list-issues" "List.Issues" "linear" true). reflexivity. Defined.

Lemma clean_joined x y :
  clean x = true → clean y = true → x ≠ EmptyString → y ≠ EmptyString →
  clean (x +:+ "_" +:+ y) = true.
Proof.
  intros (Hxa & Hxn & Hxs & Hxe)%clean_parts (Hya & Hyn & Hys & Hye)%clean_parts Hx Hy.
  unfold clean. rewrite !andb_true_iff, !negb_true_iff. split_and!.
  - rewrite all_chars_append, Hxa. simpl. by rewrite Hya.
  - apply no_run_append; [done| |by rewrite Hxe].
    simpl. by rewrite Hys, Hyn.
  - by rewrite starts_with_underscore_append.
  - rewrite ends_with_underscore_append by done.
    change ("_" +:+ y) with (String "_" y).
    destruct y as [|c u]; [done|]. exact Hye.
Qed.

(** X4: the prefix does not make local names unique: a server [x_y] with
    a tool [z] and a server [x] with a tool [y_z] get one and the same
    local name, whenever [x], [y] and [z] are non-empty names that
    [sanitize] leaves as they are. *)
Theorem sanitizeToolName_prefix_collides (x y z : string) :
  clean x = true → clean y = true → clean z = true →
  x ≠ EmptyString → y ≠ EmptyString → z ≠ EmptyString →
  sanitizeToolName (x +:+ "_" +:+ y) z true = sanitizeToolName x (y +:+ "_" +:+ z) true.
Proof.
  intros Hx Hy Hz Hxe Hye Hze. unfold sanitizeToolName.
  rewrite (sanitize_fixed (x +:+ "_" +:+ y)) by by apply clean_joined.
  rewrite (sanitize_fixed (y +:+ "_" +:+ z)) by by apply clean_joined.
  rewrite !(sanitize_fixed _ Hx), !(sanitize_fixed _ Hz).
  by rewrite !append_assoc.
Qed.

Lemma sanitizeToolName_prefix_collides_witness :
  sanitizeToolName ("ai" +:+ "_" +:+ "todo") "list" true
  = sanitizeToolName "ai" ("todo" +:+ "_" +:+ "list") true.
Proof. by apply (sanitizeToolName_prefix_collides "ai" "todo" "list"). Defined.

(** * Further properties of placeholder resolution *)

(** The names the pattern captures in [value], from left to right: the
    arguments the callback of [replace] is called with. *)
Equations? captured_names (value : string) : list string
  by wf (String.length value) lt :=
captured_names EmptyString := [];
captured_names (String c t) with inspect (match_placeholder (String c t)) := {
  | exist _ (Some (varName, rest)) _ => varName :: captured_names rest
  | exist _ None _ => captured_names t }.
Proof.
  pose proof (match_placeholder_shorter (String c t) varName rest e) as Hlt.
  simpl in Hlt. lia.
Qed.

Lemma captured_names_match s varName rest :
  match_placeholder s = Some (varName, rest) →
  captured_names s = varName :: captured_names rest.
Proof.
  destruct s as [|c t]; [done|].
  intros H. simp captured_names.
  generalize (inspect (match_placeholder (String c t))).
  intros [o Ho]. assert (o = Some (varName, rest)) as -> by congruence.
  by simp captured_names.
Qed.

Lemma captured_names_skip c t :
  match_placeholder (String c t) = None →
  captured_names (String c t) = captured_names t.
Proof.
  intros H. simp captured_names.
  generalize (inspect (match_placeholder (String c t))).
  intros [o Ho]. assert (o = None) as -> by congruence.
  by simp captured_names.
Qed.

Lemma resolveEnvVars_agree_bounded n env1 env2 s :
  String.length s < n →
  (∀ varName, varName ∈ captured_names s → env1 !! varName = env2 !! varName) →
  resolveEnvVars env1 s = resolveEnvVars env2 s.
Proof.
  revert s. induction n as [|n IH]; intros s Hlen Hagree; [lia|].
  destruct s as [|c t]; [by simp resolveEnvVars|].
  destruct (match_placeholder (String c t)) as [[varName rest]|] eqn:E.
  - rewrite !(resolveEnvVars_match _ _ _ _ E).
    rewrite (captured_names_match _ _ _ E) in Hagree.
    pose proof (match_placeholder_shorter _ _ _ E) as Hlt.
    unfold env_value. rewrite (Hagree varName) by by left.
    f_equal. apply IH; [lia|]. intros v Hv. apply Hagree. by right.
  - rewrite !(resolveEnvVars_skip _ _ _ E). f_equal.
    rewrite (captured_names_skip _ _ E) in Hagree.
    apply IH; [simpl in Hlen; lia | done].
Qed.

(** X5: the resolved text depends on the environment only through the
    variables the text names: two environments that agree on every
    captured name give the same result. *)
Theorem resolveEnvVars_reads_named_only env1 env2 value :
  (∀ varName, varName ∈ captured_names value → env1 !! varName = env2 !! varName) →
  resolveEnvVars env1 value = resolveEnvVars env2 value.
Proof. apply (resolveEnvVars_agree_bounded (S (String.length value))). lia. Qed.

Lemma resolveEnvVars_reads_named_only_witness :
  resolveEnvVars {[ "HOME" := "/root"; "API_KEY" := "k" ]} "Bearer ${API_KEY}"
  = resolveEnvVars {[ "API_KEY" := "k" ]} "Bearer ${API_KEY}".
Proof.
  apply resolveEnvVars_reads_named_only.
  intros varName Hin.
  assert (captured_names "Bearer ${API_KEY}" = ["API_KEY"]) as E by reflexivity.
  rewrite E in Hin. apply list_elem_of_singleton in Hin as ->.
  reflexivity.
Defined.

(** X6: text that cannot hold a placeholder is copied: an empty pair of
    braces [${}] stays as it is, with the text behind it resolved as
    usual, and a text without any closing brace is returned unchanged. *)
Theorem resolveEnvVars_keeps_non_placeholders env :
  (∀ post, resolveEnvVars env ("${}" +:+ post) = "${}" +:+ resolveEnvVars env post)
  ∧ (∀ s, all_chars (λ c, negb (is_close_brace c)) s = true → resolveEnvVars env s = s).
Proof.
  split.
  - intros post. simpl.
    rewrite resolveEnvVars_skip by done. f_equal.
    rewrite resolveEnvVars_skip by done. f_equal.
    by rewrite resolveEnvVars_skip.
  - intros s Hs. apply resolveEnvVars_identity.
    intros (pre & name & post & _ & ->). unfold placeholder in Hs.
    rewrite !all_chars_append in Hs. simpl in Hs.
    do 3 (rewrite ?andb_false_r in Hs; simpl in Hs). done.
Qed.

Lemma resolveEnvVars_keeps_non_placeholders_witness :
  resolveEnvVars {[ "X" := "1" ]} "--header=${X" = "--header=${X".
Proof.
  by apply (proj2 (resolveEnvVars_keeps_non_placeholders {[ "X" := "1" ]})).
Defined.

(** * Further properties of the session factory *)




Definition proxy_config : ServerConfig :=
  {| command := Some "npx"; args := Some ["-y"; "mcp-remote"; "${REMOTE}"];
     env := Some [("TOKEN", "${SECRET}"); ("HOME", "/srv")];
     url := Some "https://ignored.example/mcp"; headers := None;
     enabled := None; toolPrefix := None |}.

Definition proxy_env : gmap string string :=
  {[ "REMOTE" := "https://mcp.linear.app/mcp"; "SECRET" := "s3cret"; "HOME" := "/root" ]}.


Example proxy_child_env :
  match connectServer_transport proxy_env proxy_config with
  | Some (Stdio _ args child_env) =>
      Some (args, child_env !! "TOKEN", child_env !! "HOME", child_env !! "REMOTE")
  | _ => None
  end
  = Some (["-y"; "mcp-remote"; "https://mcp.linear.app/mcp"],
          Some "s3cret", Some "/srv", Some "https://mcp.linear.app/mcp").
Proof. reflexivity. Qed.

(** X8: a call for a server whose configuration has neither a non-empty
    [command] nor a non-empty [url] fails without any transport being
    set up: the promise of the attempt is rejected when it is made, the
    handler reports that the server must specify [command] or [url], and
    nothing stays behind in [connecting]. *)
Theorem getClient_rejects_config_without_transport process_env servers σ serverName
    serverConfig JSON_stringify callTool mcpToolName params :
  servers !! serverName = Some serverConfig →
  truthy (command serverConfig) = None → truthy (url serverConfig) = None →
  clients σ !! serverName = None → connecting σ !! serverName = None →
  ∃ σ' o,
    run process_env servers [Call serverName; Resume (length (attempts σ))] σ
    = Some (σ', [Follows (length (attempts σ))])
    ∧ outcome σ' (Follows (length (attempts σ))) = Some o
    ∧ o = Throw (Error ("Server " +:+ serverName +:+ ": must specify 'command' or 'url'"))
    ∧ Cached.execute JSON_stringify callTool serverName mcpToolName o params
      = Return {| content := JArray [text_item ("MCP error (" +:+ serverName +:+ "/"
                               +:+ mcpToolName +:+ "): Server " +:+ serverName
                               +:+ ": must specify 'command' or 'url'")];
                  isError := true |}
    ∧ clients σ' !! serverName = None ∧ connecting σ' !! serverName = None.
Proof.
  intros Hcfg Hcmd Hurl Hc Hp.
  pose proof (concurrent_calls_run process_env servers serverName serverConfig 0 0 None σ
                Hcfg Hc Hp) as Hrun.
  assert (Ht : connectServer_transport process_env serverConfig = None)
    by (unfold connectServer_transport; by rewrite Hcmd, Hurl).
  unfold concurrent_calls, settlement in Hrun. rewrite Ht in Hrun.
  exists (after_calls process_env serverName serverConfig None σ),
         (Throw (Error ("Server " +:+ serverName +:+ ": must specify 'command' or 'url'"))).
  split_and!.
  - exact Hrun.
  - rewrite outcome_after_calls. unfold attempt_outcome. by rewrite Ht.
  - done.
  - done.
  - unfold after_calls, attempt_outcome. rewrite Ht. done.
  - done.
Qed.

Definition empty_config : ServerConfig :=
  {| command := Some EmptyString; args := None; env := None; url := None;
     headers := None; enabled := None; toolPrefix := None |}.

Lemma getClient_rejects_config_without_transport_witness :
  ∃ σ' o,
    run sample_env {[ "broken" := empty_config ]}
        [Call "broken"; Resume (length (attempts initial))] initial
    = Some (σ', [Follows (length (attempts initial))])
    ∧ outcome σ' (Follows (length (attempts initial))) = Some o
    ∧ o = Throw (Error ("Server " +:+ "broken" +:+ ": must specify 'command' or 'url'"))
    ∧ Cached.execute (λ _, "{...}") (λ _ _ _, Return JNull) "broken" "ping" o (JObject [])
      = Return {| content := JArray [text_item ("MCP error (" +:+ "broken" +:+ "/"
                               +:+ "ping" +:+ "): Server " +:+ "broken"
                               +:+ ": must specify 'command' or 'url'")];
                  isError := true |}
    ∧ clients σ' !! "broken" = None ∧ connecting σ' !! "broken" = None.
Proof.
  by apply (getClient_rejects_config_without_transport sample_env
              {[ "broken" := empty_config ]} initial "broken" empty_config).
Defined.

(** * Further invariants of the connection pool *)

(** What the attempts on record say about the two maps: every attempt was
    made for a configured server, a fulfilled promise carries the client
    of its own attempt, and a client stored or closed is the client of a
    fulfilled attempt, made for the server it is stored under, whose
    frame has continued. *)
Record pool_sound (servers : gmap string ServerConfig) (σ : Pool) : Prop := {
  snd_configured : ∀ p a, attempts σ !! p = Some a → is_Some (servers !! att_server a);
  snd_fulfilled : ∀ p a c, attempts σ !! p = Some a →
    att_promise a = Settled (Return c) → c = p;
  snd_clients : ∀ s c, clients σ !! s = Some c →
    ∃ a, attempts σ !! c = Some a ∧ att_server a = s
         ∧ att_promise a = Settled (Return c) ∧ att_parked a = false;
  snd_closed : ∀ c, c ∈ closed σ →
    ∃ a, attempts σ !! c = Some a ∧ att_promise a = Settled (Return c)
         ∧ att_parked a = false
}.

Lemma pool_sound_initial servers : pool_sound servers initial.
Proof.
  split; simpl.
  - intros p a H. by rewrite lookup_nil in H.
  - intros p a c H. by rewrite lookup_nil in H.
  - intros s c H. by rewrite lookup_empty in H.
  - intros c H. by apply elem_of_nil in H.
Qed.

Lemma connectServer_not_fulfilled process_env serverName serverConfig c :
  att_promise (connectServer process_env serverName serverConfig) ≠ Settled (Return c).
Proof.
  unfold connectServer. simpl.
  by destruct (connectServer_transport process_env serverConfig).
Qed.

Lemma getClient_sound process_env servers serverName σ :
  pool_sound servers σ → pool_sound servers (getClient process_env servers serverName σ).2.
Proof.
  intros Hs.
  destruct (getClient_cases process_env servers serverName σ)
    as [(c & _ & ->)|[(p & _ & _ & ->)|[(_ & _ & _ & ->)|(cfg & Hc & Hp & Hcfg & ->)]]];
    try done.
  destruct Hs as [Hconf Hful Hcl Hclosed]. split; simpl.
  - intros p a [[_ Ha]|[-> <-]]%lookup_snoc_Some; [eauto|]. by exists cfg.
  - intros p a c [[_ Ha]|[-> <-]]%lookup_snoc_Some Hpr; [eauto|].
    by apply connectServer_not_fulfilled in Hpr.
  - intros s c Hsc. destruct (Hcl _ _ Hsc) as (a & Ha & Hsrv & Hpr & Hpk).
    exists a. split_and!; try done. by apply lookup_app_l_Some.
  - intros c Hin. destruct (Hclosed _ Hin) as (a & Ha & Hpr & Hpk).
    exists a. split_and!; try done. by apply lookup_app_l_Some.
Qed.

Lemma settle_sound servers promise failure σ σ' :
  settle promise failure σ = Some σ' → pool_sound servers σ → pool_sound servers σ'.
Proof.
  unfold settle. intros Hst [Hconf Hful Hcl Hclosed].
  destruct (attempts σ !! promise) as [a|] eqn:Ha; simpl in Hst; [|done].
  destruct (att_promise a) eqn:Hp; [|done]. injection Hst as <-.
  assert (Hkeep : ∀ c b, attempts σ !! c = Some b → att_promise b = Settled (Return c) →
            <[promise := {| att_server := att_server a; att_transport := att_transport a;
                            att_promise := Settled match failure with
                                                   | Some e => Throw e
                                                   | None => Return promise
                                                   end;
                            att_parked := att_parked a |}]> (attempts σ) !! c = Some b).
  { intros c b Hb Hpr. rewrite list_lookup_insert_ne; [done|].
    intros <-. unfold Client in *. rewrite Ha in Hb. injection Hb as <-. congruence. }
  split; simpl.
  - intros p b [(-> & <- & _)|[_ Hb]]%list_lookup_insert_Some; simpl; eauto.
  - intros p b c [(-> & <- & _)|[_ Hb]]%list_lookup_insert_Some Hpr; [|eauto].
    simpl in Hpr. destruct failure; congruence.
  - intros s c Hsc. destruct (Hcl _ _ Hsc) as (b & Hb & Hsrv & Hpr & Hpk).
    exists b. split_and!; eauto.
  - intros c Hin. destruct (Hclosed _ Hin) as (b & Hb & Hpr & Hpk).
    exists b. split_and!; eauto.
Qed.

Lemma getClient_resume_sound servers promise σ σ' :
  getClient_resume promise σ = Some σ' → pool_sound servers σ → pool_sound servers σ'.
Proof.
  unfold getClient_resume. intros Hr [Hconf Hful Hcl Hclosed].
  destruct (attempts σ !! promise) as [a|] eqn:Ha; simpl in Hr; [|done].
  destruct (att_parked a) eqn:Hak; [|done].
  assert (Hlt : promise < length (attempts σ)) by by eapply lookup_lt_Some.
  assert (Hkeep : ∀ c b, attempts σ !! c = Some b → att_parked b = false →
            <[promise := unpark a]> (attempts σ) !! c = Some b).
  { intros c b Hb Hbk. rewrite list_lookup_insert_ne; [done|].
    intros <-. unfold Client in *. rewrite Ha in Hb. injection Hb as <-. congruence. }
  assert (Hconf' : ∀ p b, <[promise := unpark a]> (attempts σ) !! p = Some b →
            is_Some (servers !! att_server b)).
  { intros p b [(-> & <- & _)|[_ Hb]]%list_lookup_insert_Some; simpl; eauto. }
  assert (Hful' : ∀ p b c, <[promise := unpark a]> (attempts σ) !! p = Some b →
            att_promise b = Settled (Return c) → c = p).
  { intros p b c [(-> & <- & _)|[_ Hb]]%list_lookup_insert_Some Hpr; simpl in *; eauto. }
  assert (Hclosed' : ∀ c, c ∈ closed σ →
            ∃ b, <[promise := unpark a]> (attempts σ) !! c = Some b
                 ∧ att_promise b = Settled (Return c) ∧ att_parked b = false).
  { intros c Hin. destruct (Hclosed _ Hin) as (b & Hb & Hpr & Hbk).
    exists b. split_and!; eauto. }
  assert (Hcl' : ∀ s c, clients σ !! s = Some c →
            ∃ b, <[promise := unpark a]> (attempts σ) !! c = Some b
                 ∧ att_server b = s ∧ att_promise b = Settled (Return c)
                 ∧ att_parked b = false).
  { intros s c Hsc. destruct (Hcl _ _ Hsc) as (b & Hb & Hsrv & Hpr & Hbk).
    exists b. split_and!; eauto. }
  destruct (att_promise a) as [|[client|e]] eqn:Hpa; [done|..]; injection Hr as <-;
    split; simpl; try done.
  intros s c. destruct (decide (att_server a = s)) as [<-|Hne].
  - rewrite lookup_insert_eq. intros [= <-].
    pose proof (Hful _ _ _ Ha Hpa) as ->.
    exists (unpark a). by rewrite list_lookup_insert_eq.
  - rewrite lookup_insert_ne by done. apply Hcl'.
Qed.

Lemma step_sound process_env servers e σ σ' hs :
  step process_env servers e σ = Some (σ', hs) →
  pool_sound servers σ → pool_sound servers σ'.
Proof.
  destruct e as [s|p f|p|n|]; simpl.
  - pose proof (getClient_sound process_env servers s σ) as H.
    destruct (getClient process_env servers s σ) as [h σ1].
    intros [= <- <-]. exact H.
  - destruct (settle p f σ) as [σ1|] eqn:E; simpl; [|done].
    intros [= <- <-]. by eapply settle_sound.
  - destruct (getClient_resume p σ) as [σ1|] eqn:E; simpl; [|done].
    intros [= <- <-]. by eapply getClient_resume_sound.
  - unfold stop_close. destruct (clients σ !! n) as [c|] eqn:E; simpl; [|done].
    intros [= <- <-] [Hconf Hful Hcl Hclosed]. split; simpl; try done.
    intros c' [->|Hin]%elem_of_cons; [|eauto].
    destruct (Hcl _ _ E) as (a & Ha & _ & Hpr & Hpk). eauto.
  - intros [= <- <-] [Hconf Hful Hcl Hclosed]. by split.
Qed.

Lemma run_sound process_env servers script σ σ' hs :
  run process_env servers script σ = Some (σ', hs) →
  pool_sound servers σ → pool_sound servers σ'.
Proof.
  revert σ hs. induction script as [|e rest IH]; intros σ hs.
  - by intros [= <- <-].
  - intros (σ1 & hs1 & hs2 & He & Hr & ->)%run_cons Hs.
    eapply IH; [done|]. by eapply step_sound.
Qed.

Lemma reachable_sound process_env servers σ :
  reachable process_env servers σ → pool_sound servers σ.
Proof. intros (script & hs & Hrun). eapply run_sound; [done | apply pool_sound_initial]. Qed.

(** An attempt on record stays on record: no step changes its server or a
    promise that is settled. *)
Lemma step_attempt_stable process_env servers e σ σ' hs p a :
  step process_env servers e σ = Some (σ', hs) → attempts σ !! p = Some a →
  ∃ a', attempts σ' !! p = Some a' ∧ att_server a' = att_server a
        ∧ (att_promise a ≠ Pending → att_promise a' = att_promise a).
Proof.
  intros Hstep Ha.
  assert (Hlt : p < length (attempts σ)) by by eapply lookup_lt_Some.
  destruct e as [s|q f|q|n|]; simpl in Hstep.
  - destruct (getClient_cases process_env servers s σ)
      as [(c & _ & E)|[(r & _ & _ & E)|[(_ & _ & _ & E)|(cfg & _ & _ & _ & E)]]];
      rewrite E in Hstep; injection Hstep as <- <-; try by exists a.
    exists a. split; [|done]. simpl. by apply lookup_app_l_Some.
  - unfold settle in Hstep.
    destruct (attempts σ !! q) as [b|] eqn:Hb; simpl in Hstep; [|done].
    destruct (att_promise b) eqn:Hpd; [|done]. injection Hstep as <- <-. simpl.
    destruct (decide (q = p)) as [->|Hne].
    + rewrite list_lookup_insert_eq by done. eexists. split; [done|].
      assert (b = a) as -> by congruence. simpl. split; [done|]. by intros [].
    + rewrite list_lookup_insert_ne by done. by exists a.
  - unfold getClient_resume in Hstep.
    destruct (attempts σ !! q) as [b|] eqn:Hb; simpl in Hstep; [|done].
    destruct (att_parked b); [|done].
    assert (∃ a', <[q := unpark b]> (attempts σ) !! p = Some a'
                  ∧ att_server a' = att_server a
                  ∧ (att_promise a ≠ Pending → att_promise a' = att_promise a)) as Hgoal.
    { destruct (decide (q = p)) as [->|Hne].
      - rewrite list_lookup_insert_eq by done. exists (unpark b).
        assert (b = a) as -> by congruence. done.
      - rewrite list_lookup_insert_ne by done. by exists a. }
    destruct (att_promise b) as [|[c|x]]; [done|..]; by injection Hstep as <- <-.
  - unfold stop_close in Hstep.
    destruct (clients σ !! n); simpl in Hstep; [|done].
    injection Hstep as <- <-. by exists a.
  - injection Hstep as <- <-. by exists a.
Qed.

Lemma run_attempt_stable process_env servers script σ σ' hs p a :
  run process_env servers script σ = Some (σ', hs) → attempts σ !! p = Some a →
  ∃ a', attempts σ' !! p = Some a' ∧ att_server a' = att_server a
        ∧ (att_promise a ≠ Pending → att_promise a' = att_promise a).
Proof.
  revert σ hs a. induction script as [|e rest IH]; intros σ hs a.
  - intros [= <- <-] Ha. by exists a.
  - intros (σ1 & hs1 & hs2 & He & Hr & ->)%run_cons Ha.
    destruct (step_attempt_stable _ _ _ _ _ _ _ _ He Ha) as (a1 & Ha1 & Hs1 & Hp1).
    destruct (IH _ _ _ Hr Ha1) as (a2 & Ha2 & Hs2 & Hp2).
    exists a2. split_and!; [done | congruence |].
    intros Hne. rewrite Hp2; [by apply Hp1|]. rewrite Hp1; done.
Qed.

(** X9: whatever runs in between, the client a caller of
    [getClient(serverName)] finally receives is the client built by a
    [connectServer] call that was made for that same server and was
    fulfilled. *)
Theorem getClient_client_of_own_server process_env servers script1 σ hs1 serverName h σ1
    script2 σ2 hs2 c :
  run process_env servers script1 initial = Some (σ, hs1) →
  getClient process_env servers serverName σ = (h, σ1) →
  run process_env servers script2 σ1 = Some (σ2, hs2) →
  outcome σ2 h = Some (Return c) →
  ∃ a, attempts σ2 !! c = Some a ∧ att_server a = serverName
       ∧ att_promise a = Settled (Return c).
Proof.
  intros Hrun1 Hg Hrun2 Hout.
  assert (Hinv : pool_inv σ) by (eapply run_inv; [done | apply pool_inv_initial]).
  assert (Hsnd : pool_sound servers σ) by (eapply run_sound; [done | apply pool_sound_initial]).
  assert (Hsnd1 : pool_sound servers σ1).
  { pose proof (getClient_sound process_env servers serverName σ Hsnd) as H.
    by rewrite Hg in H. }
  assert (Hsnd2 : pool_sound servers σ2) by by eapply run_sound.
  assert (Hfrom : ∀ p a, attempts σ1 !! p = Some a → att_server a = serverName →
            ∀ a2, attempts σ2 !! p = Some a2 → att_promise a2 = Settled (Return c) →
            ∃ a', attempts σ2 !! c = Some a' ∧ att_server a' = serverName
                  ∧ att_promise a' = Settled (Return c)).
  { intros p a Ha Hsrv a2 Ha2 Hpr.
    pose proof (snd_fulfilled _ _ Hsnd2 _ _ _ Ha2 Hpr) as ->.
    destruct (run_attempt_stable _ _ _ _ _ _ _ _ Hrun2 Ha) as (a' & Ha' & Hs' & _).
    exists a2. split_and!; [done| |done]. unfold Client in *. congruence. }
  destruct (getClient_cases process_env servers serverName σ)
    as [(c0 & Hc & E)|[(p & _ & Hp & E)|[(_ & _ & _ & E)|(cfg & _ & _ & _ & E)]]];
    rewrite E in Hg; injection Hg as <- <-; simpl in Hout.
  - injection Hout as ->.
    destruct (snd_clients _ _ Hsnd _ _ Hc) as (a & Ha & Hsrv & Hpr & _).
    destruct (run_attempt_stable _ _ _ _ _ _ _ _ Hrun2 Ha) as (a' & Ha' & Hs' & Hp').
    exists a'. split_and!; [done | congruence |]. rewrite Hp'; [done|]. by rewrite Hpr.
  - destruct (inv_connecting _ Hinv _ _ Hp) as (a & Ha & Hsrv & _).
    destruct (attempts σ2 !! p) as [a2|] eqn:Ha2; simpl in Hout; [|done].
    destruct (att_parked a2); [done|].
    destruct (att_promise a2) as [|o] eqn:Hpr; [done|]. injection Hout as ->.
    by eapply Hfrom.
  - done.
  - destruct (attempts σ2 !! length (attempts σ)) as [a2|] eqn:Ha2; simpl in Hout; [|done].
    destruct (att_parked a2); [done|].
    destruct (att_promise a2) as [|o] eqn:Hpr; [done|]. injection Hout as ->.
    eapply (Hfrom (length (attempts σ)) (connectServer process_env serverName cfg)); try done.
    simpl. by rewrite list_lookup_middle.
Qed.

Lemma getClient_client_of_own_server_witness :
  ∃ a, attempts busy_pool !! 0 = Some a ∧ att_server a = "todo"
       ∧ att_promise a = Settled (Return 0).
Proof.
  apply (getClient_client_of_own_server sample_env sample_servers
           [] initial [] "todo" (Follows 0)
           {| clients := ∅; connecting := {[ "todo" := 0 ]};
              attempts := [connectServer sample_env "todo" (todo_config None)];
              closed := [] |}
           (tail busy_schedule) busy_pool
           [Follows 0; Now (Return 0); Follows 1;
            Now (Throw (Error "No config for MCP server 'ghost'")); Follows 1; Follows 2]);
    vm_compute; reflexivity.
Defined.




(** While [stop] has not cleared [clients], the client of a fulfilled
    attempt whose frame has continued is the one stored for its server. *)
Definition stored_while_running (σ : Pool) : Prop :=
  ∀ p a c, attempts σ !! p = Some a → att_promise a = Settled (Return c) →
    att_parked a = false → clients σ !! att_server a = Some p.

Definition is_clear (e : event) : bool :=
  match e with
  | StopClear => true
  | _ => false
  end.

Lemma step_stored process_env servers e σ σ' hs :
  is_clear e = false →
  step process_env servers e σ = Some (σ', hs) →
  pool_inv σ → pool_sound servers σ →
  stored_while_running σ → stored_while_running σ'.
Proof.
  intros Hne Hstep Hinv Hsnd Hst p a c Ha Hpr Hpk.
  destruct e as [s|q f|q|n|]; simpl in Hstep; [| | | |done].
  - destruct (getClient_cases process_env servers s σ)
      as [(c0 & _ & E)|[(r & _ & _ & E)|[(_ & _ & _ & E)|(cfg & _ & _ & _ & E)]]];
      rewrite E in Hstep; injection Hstep as <- <-; try by eapply Hst.
    simpl in *. apply lookup_snoc_Some in Ha as [[_ Ha]|[-> <-]]; [by eapply Hst|].
    done.
  - unfold settle in Hstep.
    destruct (attempts σ !! q) as [b|] eqn:Hb; simpl in Hstep; [|done].
    destruct (att_promise b) eqn:Hpd; [|done]. injection Hstep as <- <-. simpl in *.
    apply list_lookup_insert_Some in Ha as [(-> & <- & _)|[_ Ha]]; [|by eapply Hst].
    simpl in *. pose proof (inv_pending _ Hinv _ _ Hb Hpd). congruence.
  - unfold getClient_resume in Hstep.
    destruct (attempts σ !! q) as [b|] eqn:Hb; simpl in Hstep; [|done].
    destruct (att_parked b) eqn:Hbk; [|done].
    pose proof (inv_parked _ Hinv _ _ Hb Hbk) as Hcon.
    assert (Hother : ∀ p' a', attempts σ !! p' = Some a' →
              att_promise a' = Settled (Return c) → att_parked a' = false →
              att_server a' ≠ att_server b).
    { intros p' a' Ha' Hpr' Hpk' Heq.
      pose proof (Hst _ _ _ Ha' Hpr' Hpk') as Hcl. rewrite Heq in Hcl.
      pose proof (inv_exclusive _ Hinv _ _ Hcl). congruence. }
    destruct (att_promise b) as [|[client|x]] eqn:Hpb; [done|..];
      injection Hstep as <- <-; simpl in *;
      apply list_lookup_insert_Some in Ha as [(-> & <- & _)|[Hqp Ha]]; simpl in *.
    + pose proof (snd_fulfilled _ _ Hsnd _ _ _ Hb Hpb) as ->. apply lookup_insert_eq.
    + rewrite lookup_insert_ne by (intros Heq; by eapply Hother).
      by eapply Hst.
    + congruence.
    + by eapply Hst.
  - unfold stop_close in Hstep.
    destruct (clients σ !! n); simpl in Hstep; [|done].
    injection Hstep as <- <-. by eapply Hst.
Qed.

Lemma run_stored process_env servers script σ σ' hs :
  forallb (λ e, negb (is_clear e)) script = true →
  run process_env servers script σ = Some (σ', hs) →
  pool_inv σ → pool_sound servers σ →
  stored_while_running σ → stored_while_running σ'.
Proof.
  revert σ hs. induction script as [|e rest IH]; intros σ hs Hnc.
  - by intros [= <- <-].
  - simpl in Hnc. apply andb_true_iff in Hnc as [He Hrest].
    apply negb_true_iff in He.
    intros (σ1 & hs1 & hs2 & Hstep & Hr & ->)%run_cons Hinv Hsnd Hst.
    eapply IH; [done | done | by eapply step_inv | by eapply step_sound |].
    by eapply step_stored.
Qed.

(** X11: as long as [stop] has not cleared the pool, no server is
    connected twice: among the [connectServer] calls made for one server,
    at most one is fulfilled. *)
Theorem connectServer_fulfilled_once process_env servers script σ hs p1 a1 c1 p2 a2 c2 :
  forallb (λ e, negb (is_clear e)) script = true →
  run process_env servers script initial = Some (σ, hs) →
  attempts σ !! p1 = Some a1 → att_promise a1 = Settled (Return c1) →
  attempts σ !! p2 = Some a2 → att_promise a2 = Settled (Return c2) →
  att_server a1 = att_server a2 →
  p1 = p2.
Proof.
  intros Hnc Hrun H1 Hf1 H2 Hf2 Hsrv.
  assert (Hinv : pool_inv σ) by (eapply run_inv; [done | apply pool_inv_initial]).
  assert (Hsnd : pool_sound servers σ) by (eapply run_sound; [done | apply pool_sound_initial]).
  assert (Hst : stored_while_running σ).
  { eapply run_stored; [done | done | apply pool_inv_initial | apply pool_sound_initial |].
    intros p a c H. simpl in H. by rewrite lookup_nil in H. }
  destruct (att_parked a1) eqn:Hk1, (att_parked a2) eqn:Hk2.
  - by eapply attempt_in_flight_unique.
  - pose proof (inv_parked _ Hinv _ _ H1 Hk1) as Hcon.
    pose proof (Hst _ _ _ H2 Hf2 Hk2) as Hcl. rewrite <- Hsrv in Hcl.
    pose proof (inv_exclusive _ Hinv _ _ Hcl). congruence.
  - pose proof (inv_parked _ Hinv _ _ H2 Hk2) as Hcon.
    pose proof (Hst _ _ _ H1 Hf1 Hk1) as Hcl. rewrite Hsrv in Hcl.
    pose proof (inv_exclusive _ Hinv _ _ Hcl). congruence.
  - pose proof (Hst _ _ _ H1 Hf1 Hk1) as Hcl1.
    pose proof (Hst _ _ _ H2 Hf2 Hk2) as Hcl2.
    rewrite Hsrv in Hcl1. congruence.
Qed.

Definition retry_schedule : list event :=
  [Call "todo"; Settle 0 (Some spawn_error); Call "todo"; Resume 0; Call "todo";
   Call "todo"; Settle 1 None; Resume 1; Call "todo"; StopClose "todo"].

Definition second_attempt : Attempt :=
  {| att_server := "todo";
     att_transport := connectServer_transport sample_env (todo_config None);
     att_promise := Settled (Return 1); att_parked := false |}.

Lemma connectServer_fulfilled_once_witness : 1 = 1.
Proof.
  apply (connectServer_fulfilled_once sample_env sample_servers retry_schedule
           {| clients := {[ "todo" := 1 ]}; connecting := ∅;
              attempts := [unpark failed_attempt; second_attempt];
              closed := [1] |}
           [Follows 0; Follows 0; Follows 1; Follows 1; Now (Return 1)]
           1 second_attempt 1 1 second_attempt 1);
    vm_compute; reflexivity.
Defined.

(** With [stop] in between, a server can be connected again. *)
Example reconnect_after_stop :
  match run sample_env sample_servers
          [Call "todo"; Settle 0 None; Resume 0; StopClose "todo"; StopClear;
           Call "todo"; Settle 1 None; Resume 1] initial with
  | Some (σ, _) => Some (map att_promise (attempts σ), clients σ !! "todo", closed σ)
  | None => None
  end
  = Some ([Settled (Return 0); Settled (Return 1)], Some 1, [0]).
Proof. reflexivity. Qed.

Definition is_call (serverName : string) (e : event) : bool :=
  match e with
  | Call s => bool_decide (s = serverName)
  | _ => false
  end.

Lemma filter_length_servers serverName (l l' : list Attempt) :
  att_server <$> l = att_server <$> l' →
  length (filter (λ a, att_server a = serverName) l)
  = length (filter (λ a, att_server a = serverName) l').
Proof.
  revert l'. induction l as [|a l IH]; intros [|a' l'] H; try done.
  injection H as Ha Hl. rewrite !filter_cons, Ha.
  destruct (decide (att_server a' = serverName)); simpl; by rewrite (IH _ Hl).
Qed.

Lemma connect_calls_insert serverName (l : list Attempt) q b b' :
  l !! q = Some b → att_server b' = att_server b →
  length (filter (λ a, att_server a = serverName) (<[q := b']> l))
  = length (filter (λ a, att_server a = serverName) l).
Proof.
  intros Hb Hsrv. apply filter_length_servers.
  rewrite list_fmap_insert, Hsrv. apply list_insert_id.
  by rewrite list_lookup_fmap, Hb.
Qed.

Lemma step_connect_calls process_env servers e σ σ' hs serverName :
  step process_env servers e σ = Some (σ', hs) →
  connect_calls serverName σ'
  ≤ connect_calls serverName σ + (if is_call serverName e then 1 else 0).
Proof.
  intros Hstep. destruct e as [s|q f|q|n|]; simpl in Hstep.
  - destruct (getClient_cases process_env servers s σ)
      as [(c0 & _ & E)|[(r & _ & _ & E)|[(_ & _ & _ & E)|(cfg & _ & _ & _ & E)]]];
      rewrite E in Hstep; injection Hstep as <- <-; try lia.
    rewrite connect_calls_snoc. simpl.
    destruct (decide (s = serverName)) as [->|Hne].
    + rewrite bool_decide_eq_true_2 by done. lia.
    + lia.
  - unfold settle in Hstep.
    destruct (attempts σ !! q) as [b|] eqn:Hb; simpl in Hstep; [|done].
    destruct (att_promise b); [|done]. injection Hstep as <- <-.
    unfold connect_calls. simpl.
    rewrite (connect_calls_insert _ _ _ b) by done. lia.
  - unfold getClient_resume in Hstep.
    destruct (attempts σ !! q) as [b|] eqn:Hb; simpl in Hstep; [|done].
    destruct (att_parked b); [|done].
    assert (length (filter (λ a, att_server a = serverName)
                      (<[q := unpark b]> (attempts σ)))
            = connect_calls serverName σ) as Heq.
    { unfold connect_calls. by rewrite (connect_calls_insert _ _ _ b). }
    destruct (att_promise b) as [|[c|x]]; [done|..]; injection Hstep as <- <-;
      unfold connect_calls at 1; simpl; lia.
  - unfold stop_close in Hstep.
    destruct (clients σ !! n); simpl in Hstep; [|done].
    injection Hstep as <- <-. unfold connect_calls. simpl. lia.
  - injection Hstep as <- <-. unfold connect_calls. simpl. lia.
Qed.

(** X12: [connectServer] runs only on behalf of [getClient]: under any
    schedule, the number of attempts made for a server is at most the
    number of [getClient] calls made for it. *)
Theorem connect_calls_bounded process_env servers script σ hs serverName :
  run process_env servers script initial = Some (σ, hs) →
  connect_calls serverName σ ≤ length (filter (λ e, is_call serverName e = true) script).
Proof.
  intros Hrun.
  assert (Hgen : ∀ script σ0 σ' hs,
            run process_env servers script σ0 = Some (σ', hs) →
            connect_calls serverName σ'
            ≤ connect_calls serverName σ0
              + length (filter (λ e, is_call serverName e = true) script)).
  { clear. induction script as [|e rest IH]; intros σ0 σ' hs.
    - intros [= <- <-]. simpl. lia.
    - intros (σ1 & hs1 & hs2 & He & Hr & ->)%run_cons.
      pose proof (step_connect_calls _ _ _ _ _ _ serverName He).
      pose proof (IH _ _ _ Hr). rewrite filter_cons.
      destruct (decide (is_call serverName e = true)) as [E|E].
      + rewrite E in H. simpl. lia.
      + apply not_true_is_false in E. rewrite E in H. lia. }
  apply (Hgen _ _ _ _ Hrun).
Qed.

Lemma connect_calls_bounded_witness :
  connect_calls "todo" busy_pool
  ≤ length (filter (λ e, is_call "todo" e = true) busy_schedule).
Proof.
  apply (connect_calls_bounded sample_env sample_servers busy_schedule busy_pool
           [Follows 0; Follows 0; Now (Return 0); Follows 1;
            Now (Throw (Error "No config for MCP server 'ghost'")); Follows 1; Follows 2]).
  vm_compute. reflexivity.
Defined.

(** X13: [stop] misses an attempt in flight.  [clients.clear()] empties
    the map of clients but leaves [connecting] alone, so a frame of
    [getClient] that is still suspended at its [await] when [stop] ends
    stores the client of its fulfilled attempt afterwards: the pool then
    hands out, without connecting again, a client that [stop] never
    closed. *)
Theorem stop_misses_attempt_in_flight process_env servers σ promise a client :
  reachable process_env servers σ →
  attempts σ !! promise = Some a → att_parked a = true →
  att_promise a = Settled (Return client) →
  ∃ σ', getClient_resume promise (stop_clear σ) = Some σ'
        ∧ (client ∉ closed σ')
        ∧ getClient process_env servers (att_server a) σ' = (Now (Return client), σ').
Proof.
  intros Hreach Ha Hpk Hpr.
  pose proof (reachable_sound _ _ _ Hreach) as Hsnd.
  unfold getClient_resume. simpl. rewrite Ha. simpl. rewrite Hpk, Hpr.
  eexists. split; [done|]. simpl. split.
  - intros Hin. destruct (snd_closed _ _ Hsnd _ Hin) as (b & Hb & _ & Hbk).
    pose proof (snd_fulfilled _ _ Hsnd _ _ _ Ha Hpr) as ->.
    unfold Client in *. congruence.
  - unfold getClient. simpl. by rewrite lookup_insert_eq.
Qed.

Definition first_attempt : Attempt :=
  {| att_server := "todo";
     att_transport := connectServer_transport sample_env (todo_config None);
     att_promise := Settled (Return 0); att_parked := true |}.

Definition stopping_pool : Pool :=
  {| clients := ∅; connecting := {[ "todo" := 0 ]};
     attempts := [first_attempt]; closed := [] |}.

Lemma stop_misses_attempt_in_flight_witness :
  ∃ σ', getClient_resume 0 (stop_clear stopping_pool) = Some σ'
        ∧ (0 ∉ closed σ')
        ∧ getClient sample_env sample_servers "todo" σ' = (Now (Return 0), σ').
Proof.
  apply (stop_misses_attempt_in_flight sample_env sample_servers stopping_pool 0
           first_attempt 0); [|reflexivity..].
  exists [Call "todo"; Settle 0 None], [Follows 0]. vm_compute. reflexivity.
Defined.

(** ** The cache file, from [loadCache] to the registrations *)

Lemma loadCache_some JSON_parse file cache :
  Cached.loadCache JSON_parse file = Return (Some cache) ↔
  ∃ raw, file = Return raw ∧ JSON_parse raw = Return cache
         ∧ version_tag cache = Some (JNumber 1)
         ∧ ∃ entries, servers_field cache = Some (JArray entries).
Proof.
  unfold Cached.loadCache. split.
  - destruct file as [raw|e]; simpl; [|done].
    destruct (JSON_parse raw) as [doc|e] eqn:Hparse; simpl; [|done].
    destruct doc as [|b|n|s|items|fields]; try done. simpl.
    destruct (lookup_field "version" fields) as [[|b|n|s|items|fs]|] eqn:Hv; try done.
    destruct n as [|[q|q|]|q]; try done. simpl.
    destruct (lookup_field "servers" fields) as [[|b|n|s|items|fs]|] eqn:Hs; try done.
    simpl. intros [= <-]. exists raw. simpl. rewrite Hv, Hs. eauto.
  - intros (raw & -> & Hparse & Hv & entries & Hs). simpl. rewrite Hparse. simpl.
    destruct cache as [|b|n|s|items|fields]; try done. simpl in *.
    by rewrite Hv, Hs.
Qed.

(** X14: [loadCache] hands a document to [register] exactly when the
    file could be read and parsed and the document carries the number 1
    as [version] and an array as [servers]; the document is then the
    parsed one, and nothing else about it has been looked at. *)
Theorem loadCache_accepts JSON_parse file cache :
  Cached.loadCache JSON_parse file = Return (Some cache) ↔
  ∃ raw, file = Return raw ∧ JSON_parse raw = Return cache
         ∧ version_tag cache = Some (JNumber 1)
         ∧ ∃ entries, servers_field cache = Some (JArray entries).
Proof. apply loadCache_some. Qed.









(** ** The service of the eager plugin

    The eager plugin connects in the [start] of its service and keeps two
    [Map]s, [clients] and [transports].  A [Map] iterates in insertion
    order, and [set] on a key that is present replaces the value where it
    stands. *)

Fixpoint Map_get {V} (k : string) (m : list (string * V)) : option V :=
  match m with
  | [] => None
  | (k', v) :: rest => if decide (k = k') then Some v else Map_get k rest
  end.

Fixpoint Map_set {V} (k : string) (v : V) (m : list (string * V)) : list (string * V) :=
  match m with
  | [] => [(k, v)]
  | (k', v') :: rest =>
      if decide (k = k') then (k, v) :: rest else (k', v') :: Map_set k v rest
  end.

Module Service.

(** What goes to [api.logger], by the data the message is built from. *)
Inductive Logged :=
| no_servers_configured
| connecting_to (n : nat)
| failed_to_connect (serverName err : string)
| discovered (serverName : string) (n : nat)
| disconnected_from (name : string)
| error_closing (name err : string).

(** The two [Map]s, what was handed to [api.registerTool] and to
    [api.logger], the number of [Client] objects built so far (a client
    is named by its number), and the clients and transports on which
    [close()] has been called. *)
Record Bridge := {
  clients : list (string * Client);
  transports : list (string * Transport);
  registered : list Registration;
  logged : list Logged;
  built : nat;
  closed_clients : list Client;
  closed_transports : list Transport
}.

(** The plugin after [register(api)] with [built] clients built before. *)
Definition fresh_from (built : nat) : Bridge :=
  {| clients := []; transports := []; registered := []; logged := [];
     built := built; closed_clients := []; closed_transports := [] |}.

Definition fresh : Bridge := fresh_from 0.

Definition new_Client (β : Bridge) : Bridge :=
  {| clients := clients β; transports := transports β; registered := registered β;
     logged := logged β; built := S (built β);
     closed_clients := closed_clients β; closed_transports := closed_transports β |}.

Definition clients_set (serverName : string) (client : Client) (β : Bridge) : Bridge :=
  {| clients := Map_set serverName client (clients β); transports := transports β;
     registered := registered β; logged := logged β; built := built β;
     closed_clients := closed_clients β; closed_transports := closed_transports β |}.

Definition transports_set (serverName : string) (transport : Transport) (β : Bridge)
  : Bridge :=
  {| clients := clients β; transports := Map_set serverName transport (transports β);
     registered := registered β; logged := logged β; built := built β;
     closed_clients := closed_clients β; closed_transports := closed_transports β |}.

Definition registerTools (regs : list Registration) (β : Bridge) : Bridge :=
  {| clients := clients β; transports := transports β;
     registered := registered β ++ regs; logged := logged β; built := built β;
     closed_clients := closed_clients β; closed_transports := closed_transports β |}.

Definition logger (entry : Logged) (β : Bridge) : Bridge :=
  {| clients := clients β; transports := transports β; registered := registered β;
     logged := logged β ++ [entry]; built := built β;
     closed_clients := closed_clients β; closed_transports := closed_transports β |}.

Definition client_closed (client : Client) (β : Bridge) : Bridge :=
  {| clients := clients β; transports := transports β; registered := registered β;
     logged := logged β; built := built β;
     closed_clients := closed_clients β ++ [client];
     closed_transports := closed_transports β |}.

Definition transport_closed (transport : Transport) (β : Bridge) : Bridge :=
  {| clients := clients β; transports := transports β; registered := registered β;
     logged := logged β; built := built β;
     closed_clients := closed_clients β;
     closed_transports := closed_transports β ++ [transport] |}.

Definition clear (β : Bridge) : Bridge :=
  {| clients := []; transports := []; registered := registered β;
     logged := logged β; built := built β;
     closed_clients := closed_clients β; closed_transports := closed_transports β |}.

Section Service.

(** [process.env]; [Object.entries(servers)] and [config.optional ?? false];
    how [new URL(resolvedUrl)] ends; how the awaited [client.connect(transport)],
    [client.listTools()] (with its [tools] member) and [client.close()] end
    for the client of the given number.  [start] and [stop] are modelled
    run to their end, one after the other. *)
Variable process_env : gmap string string.
Variable servers : list (string * ServerConfig).
Variable optionalTools : bool.
Variable new_URL : string → completion string.
Variable connect : Client → Transport → completion ().
Variable listTools : Client → completion (option (list CachedTool)).
Variable close : Client → completion ().

Definition resolveEnvInArray (arr : list string) : list string :=
  map (resolveEnvVars process_env) arr.

Definition resolveEnvInRecord (rec : list (string * string)) : list (string * string) :=
  map (λ kv, (kv.1, resolveEnvVars process_env kv.2)) rec.

(** [connectServer] from [await client.connect(transport)] on. *)
Definition connect_and_register (serverName : string) (serverConfig : ServerConfig)
    (client : Client) (transport : Transport) (β : Bridge) : completion () * Bridge :=
  match connect client transport with
  | Throw err => (Throw err, β)
  | Return _ =>
      let β := clients_set serverName client β in
      match listTools client with
      | Throw err => (Throw err, β)
      | Return toolsResult =>
          let tools := default [] toolsResult in
          (Return (),
           registerTools (Eager.register_tools serverName serverConfig optionalTools tools)
             (logger (discovered serverName (length tools)) β))
      end
  end.

Definition connectServer (serverName : string) (serverConfig : ServerConfig) (β : Bridge)
  : completion () * Bridge :=
  let client := built β in
  let β := new_Client β in
  match truthy (command serverConfig) with
  | Some cmd =>
      let resolvedArgs := match args serverConfig with
                          | Some a => resolveEnvInArray a
                          | None => []
                          end in
      let resolvedEnv := match env serverConfig with
                         | Some e => resolveEnvInRecord e
                         | None => []
                         end in
      let transport := Stdio (resolveEnvVars process_env cmd) resolvedArgs
                             (list_to_map resolvedEnv ∪ process_env) in
      connect_and_register serverName serverConfig client transport
        (transports_set serverName transport β)
  | None =>
      match truthy (url serverConfig) with
      | Some u =>
          let resolvedHeaders := match headers serverConfig with
                                 | Some h => resolveEnvInRecord h
                                 | None => []
                                 end in
          match new_URL (resolveEnvVars process_env u) with
          | Throw err => (Throw err, β)
          | Return href =>
              connect_and_register serverName serverConfig client
                (SSE href resolvedHeaders) β
          end
      | None =>
          (Throw (Error ("Server " +:+ serverName
                         +:+ ": must specify either 'command' or 'url'")), β)
      end
  end.

Definition enabledServers : list (string * ServerConfig) :=
  filter (λ entry, enabled entry.2 ≠ Some false) servers.

(** One turn of the loop of [start]. *)
Definition start_turn (β : Bridge) (entry : string * ServerConfig) : Bridge :=
  match connectServer entry.1 entry.2 β with
  | (Return _, β') => β'
  | (Throw err, β') => logger (failed_to_connect entry.1 (rendered err)) β'
  end.

Definition start (β : Bridge) : Bridge :=
  match enabledServers with
  | [] => logger no_servers_configured β
  | _ => foldl start_turn (logger (connecting_to (length enabledServers)) β) enabledServers
  end.

(** One turn of each of the two loops of [stop]. *)
Definition stop_client (β : Bridge) (entry : string * Client) : Bridge :=
  match close entry.2 with
  | Return _ => logger (disconnected_from entry.1) (client_closed entry.2 β)
  | Throw err => logger (error_closing entry.1 (rendered err)) (client_closed entry.2 β)
  end.

Definition stop_transport (β : Bridge) (entry : string * Transport) : Bridge :=
  transport_closed entry.2 β.

Definition stop (β : Bridge) : Bridge :=
  clear (foldl stop_transport (foldl stop_client β (clients β)) (transports β)).

(** [execute] of a registered tool, on the [clients] of the moment. *)
Definition tool_execute (JSON_stringify : json → string)
    (callTool : Client → string → json → completion json)
    (β : Bridge) (r : Registration) (params : json) : completion ToolResult :=
  Eager.execute JSON_stringify callTool (list_to_map (clients β))
    (reg_server r) (reg_tool r) params.

End Service.

End Service.

Lemma Map_get_set_eq {V} k (v : V) m : Map_get k (Map_set k v m) = Some v.
Proof.
  induction m as [|[k' v'] m IH]; simpl.
  - by rewrite decide_True.
  - destruct (decide (k = k')) as [->|Hne]; simpl.
    + by rewrite decide_True.
    + by rewrite decide_False.
Qed.

Lemma Map_get_set_ne {V} k k' (v : V) m :
  k ≠ k' → Map_get k' (Map_set k v m) = Map_get k' m.
Proof.
  intros Hne. induction m as [|[k0 v0] m IH]; simpl.
  - by rewrite decide_False.
  - destruct (decide (k = k0)) as [->|Hk]; simpl.
    + by rewrite !decide_False.
    + by rewrite IH.
Qed.

Lemma Map_get_list_to_map {V} k (m : list (string * V)) :
  (list_to_map m : gmap string V) !! k = Map_get k m.
Proof.
  induction m as [|[k' v'] m IH]; simpl; [done|].
  destruct (decide (k = k')) as [->|Hne].
  - by rewrite lookup_insert_eq.
  - by rewrite lookup_insert_ne.
Qed.

Lemma Map_get_elem_of {V} k (v : V) m : Map_get k m = Some v → (k, v) ∈ m.
Proof.
  induction m as [|[k' v'] m IH]; simpl; [done|].
  destruct (decide (k = k')) as [->|Hne].
  - intros [= ->]. apply elem_of_cons. by left.
  - intros H. apply elem_of_cons. right. by apply IH.
Qed.

Lemma register_tools_server serverName serverConfig optionalTools tools r :
  r ∈ Eager.register_tools serverName serverConfig optionalTools tools →
  reg_server r = serverName.
Proof.
  unfold Eager.register_tools. by intros (tool & -> & _)%list_elem_of_fmap.
Qed.

Lemma filter_all {A} (P : A → Prop) `{∀ x, Decision (P x)} (l : list A) :
  (∀ x, x ∈ l → P x) → filter P l = l.
Proof.
  induction l as [|x l IH]; intros Hall; [done|].
  rewrite filter_cons, decide_True by (apply Hall, elem_of_cons; by left).
  f_equal. apply IH. intros y Hy. apply Hall, elem_of_cons. by right.
Qed.

Lemma filter_none {A} (P : A → Prop) `{∀ x, Decision (P x)} (l : list A) :
  (∀ x, x ∈ l → ¬ P x) → filter P l = [].
Proof.
  induction l as [|x l IH]; intros Hall; [done|].
  rewrite filter_cons, decide_False by (apply Hall, elem_of_cons; by left).
  apply IH. intros y Hy. apply Hall, elem_of_cons. by right.
Qed.

Lemma NoDup_fst_filter {A B} (P : A * B → Prop) `{∀ x, Decision (P x)} (l : list (A * B)) :
  NoDup l.*1 → NoDup (filter P l).*1.
Proof.
  induction l as [|x l IH]; [done|]. rewrite fmap_cons, NoDup_cons. intros [Hx Hl].
  rewrite filter_cons. destruct (decide (P x)); [|by apply IH].
  rewrite fmap_cons, NoDup_cons. split; [|by apply IH].
  intros (y & Hy & Hin)%list_elem_of_fmap. apply list_elem_of_filter in Hin as [_ Hin].
  apply Hx, list_elem_of_fmap. eauto.
Qed.

Section ServiceFacts.

Context (process_env : gmap string string) (servers : list (string * ServerConfig))
  (optionalTools : bool) (new_URL : string → completion string)
  (connect : Client → Transport → completion ())
  (listTools : Client → completion (option (list CachedTool)))
  (close : Client → completion ()).

Abbreviation connectServer :=
  (Service.connectServer process_env optionalTools new_URL connect listTools).
Abbreviation start_turn :=
  (Service.start_turn process_env optionalTools new_URL connect listTools).
Abbreviation start :=
  (Service.start process_env servers optionalTools new_URL connect listTools).
Abbreviation stop := (Service.stop close).
Abbreviation enabledServers := (Service.enabledServers servers).

(** What one call of [connectServer] changes: it builds one client,
    closes nothing, touches the two maps at its own server name only,
    removes no client, and registers tools of its own server only, and
    only once its client is stored. *)
Lemma connectServer_frame serverName serverConfig β :
  let β' := (connectServer serverName serverConfig β).2 in
  Service.built β' = S (Service.built β)
  ∧ Service.closed_clients β' = Service.closed_clients β
  ∧ Service.closed_transports β' = Service.closed_transports β
  ∧ (∀ k, k ≠ serverName →
       Map_get k (Service.clients β') = Map_get k (Service.clients β)
       ∧ Map_get k (Service.transports β') = Map_get k (Service.transports β))
  ∧ (∀ k, is_Some (Map_get k (Service.clients β)) → is_Some (Map_get k (Service.clients β')))
  ∧ ∃ new, Service.registered β' = Service.registered β ++ new
           ∧ (∀ r, r ∈ new → reg_server r = serverName)
           ∧ (new ≠ [] → Map_get serverName (Service.clients β') = Some (Service.built β)).
Proof.
  assert (Hgrow : ∀ k c m, is_Some (Map_get k m) →
            is_Some (Map_get k (Map_set serverName (c : Client) m))).
  { intros k c m Hk. destruct (decide (serverName = k)) as [->|Hne].
    - rewrite Map_get_set_eq. eauto.
    - by rewrite Map_get_set_ne. }
  unfold Service.connectServer, Service.connect_and_register. cbv zeta.
  repeat case_match; simpl; split_and!; try done;
    try (intros k Hk; by rewrite ?Map_get_set_ne by done);
    try (intros k Hk; by apply Hgrow);
    try (exists []; rewrite app_nil_r; split_and!; [done | by intros r ?%elem_of_nil | done]).
  all: eexists; split_and!; [done | by intros r ?%register_tools_server |].
  all: intros _; apply Map_get_set_eq.
Qed.

(** What [connectServer] does at its own server name depends on the
    state only through the number of the client and the entries of the
    two maps at that name. *)
Lemma connectServer_local serverName serverConfig β1 β2 :
  Service.built β1 = Service.built β2 →
  Map_get serverName (Service.clients β1) = Map_get serverName (Service.clients β2) →
  Map_get serverName (Service.transports β1) = Map_get serverName (Service.transports β2) →
  let r1 := connectServer serverName serverConfig β1 in
  let r2 := connectServer serverName serverConfig β2 in
  r1.1 = r2.1
  ∧ Map_get serverName (Service.clients r1.2) = Map_get serverName (Service.clients r2.2)
  ∧ Map_get serverName (Service.transports r1.2)
    = Map_get serverName (Service.transports r2.2)
  ∧ ∃ new, Service.registered r1.2 = Service.registered β1 ++ new
           ∧ Service.registered r2.2 = Service.registered β2 ++ new.
Proof.
  intros Hb Hc Ht.
  unfold Service.connectServer, Service.connect_and_register. cbv zeta.
  rewrite <- Hb.
  repeat case_match; simpl; split_and!; try done;
    rewrite ?Map_get_set_eq; try done;
    try (exists []; by rewrite !app_nil_r);
    by eexists.
Qed.

Lemma start_turn_frame β entry :
  let β' := start_turn β entry in
  Service.built β' = S (Service.built β)
  ∧ ∀ k, k ≠ entry.1 →
      Map_get k (Service.clients β') = Map_get k (Service.clients β)
      ∧ Map_get k (Service.transports β') = Map_get k (Service.transports β)
      ∧ filter (λ r, reg_server r = k) (Service.registered β')
        = filter (λ r, reg_server r = k) (Service.registered β).
Proof.
  destruct (connectServer_frame entry.1 entry.2 β)
    as (Hb & _ & _ & Hmaps & _ & new & Hreg & Hnew & _).
  unfold Service.start_turn.
  destruct (connectServer entry.1 entry.2 β) as [[[]|err] β'] eqn:E; simpl in *.
  all: split; [done|]; intros k Hk; destruct (Hmaps k Hk) as [-> ->];
    split_and!; try done; rewrite Hreg, filter_app, (filter_none _ new), app_nil_r;
    try done; intros r Hr; rewrite (Hnew r Hr); congruence.
Qed.

Lemma start_turns_frame l : ∀ β k,
  k ∉ l.*1 →
  Map_get k (Service.clients (foldl start_turn β l)) = Map_get k (Service.clients β)
  ∧ Map_get k (Service.transports (foldl start_turn β l))
    = Map_get k (Service.transports β)
  ∧ filter (λ r, reg_server r = k) (Service.registered (foldl start_turn β l))
    = filter (λ r, reg_server r = k) (Service.registered β).
Proof.
  induction l as [|entry rest IH]; intros β k Hk; [done|].
  rewrite fmap_cons, not_elem_of_cons in Hk. destruct Hk as [Hne Hk].
  simpl. destruct (IH (start_turn β entry) k Hk) as (-> & -> & ->).
  destruct (start_turn_frame β entry) as [_ Hf]. by apply Hf.
Qed.

Lemma start_turns_isolated l : ∀ β i serverName serverConfig,
  NoDup l.*1 → l !! i = Some (serverName, serverConfig) →
  Map_get serverName (Service.clients β) = None →
  Map_get serverName (Service.transports β) = None →
  filter (λ r, reg_server r = serverName) (Service.registered β) = [] →
  let final := foldl start_turn β l in
  let alone := (connectServer serverName serverConfig
                  (Service.fresh_from (Service.built β + i))).2 in
  Map_get serverName (Service.clients final) = Map_get serverName (Service.clients alone)
  ∧ Map_get serverName (Service.transports final)
    = Map_get serverName (Service.transports alone)
  ∧ filter (λ r, reg_server r = serverName) (Service.registered final)
    = Service.registered alone.
Proof.
  induction l as [|entry rest IH]; intros β i serverName serverConfig Hnd Hi Hc Ht Hr; [done|].
  rewrite fmap_cons, NoDup_cons in Hnd. destruct Hnd as [Hhead Hnd].
  destruct i as [|j]; simpl in Hi.
  - injection Hi as ->. simpl in Hhead. cbv zeta. simpl foldl.
    destruct (start_turns_frame rest (start_turn β (serverName, serverConfig)) serverName Hhead)
      as (-> & -> & ->).
    rewrite Nat.add_0_r.
    destruct (connectServer_local serverName serverConfig β
                (Service.fresh_from (Service.built β)) eq_refl Hc Ht)
      as (_ & Hcl & Htr & new & Hr1 & Hr2).
    destruct (connectServer_frame serverName serverConfig β)
      as (_ & _ & _ & _ & _ & new' & Hreg & Hnew & _).
    assert (new' = new) as -> by (rewrite Hr1 in Hreg; by apply app_inv_head in Hreg).
    assert (Hsame : Map_get serverName
                      (Service.clients (start_turn β (serverName, serverConfig)))
                    = Map_get serverName
                        (Service.clients (connectServer serverName serverConfig β).2)
                    ∧ Map_get serverName
                        (Service.transports (start_turn β (serverName, serverConfig)))
                      = Map_get serverName
                          (Service.transports (connectServer serverName serverConfig β).2)
                    ∧ Service.registered (start_turn β (serverName, serverConfig))
                      = Service.registered (connectServer serverName serverConfig β).2).
    { unfold Service.start_turn. simpl.
      by destruct (connectServer serverName serverConfig β) as [[[]|err] β']. }
    destruct Hsame as (-> & -> & ->).
    split_and!; [done | done |].
    rewrite Hr1, Hr2, filter_app, Hr. simpl. by apply filter_all.
  - assert (Hne : serverName ≠ entry.1).
    { intros ->. apply Hhead, list_elem_of_fmap.
      exists (entry.1, serverConfig). split; [done|]. by eapply list_elem_of_lookup_2. }
    destruct (start_turn_frame β entry) as [Hb Hf].
    destruct (Hf serverName Hne) as (Hc' & Ht' & Hr').
    cbv zeta. simpl foldl.
    replace (Service.built β + S j) with (Service.built (start_turn β entry) + j) by lia.
    apply IH; try done; congruence.
Qed.

Lemma start_isolated i serverName serverConfig :
  NoDup servers.*1 → enabledServers !! i = Some (serverName, serverConfig) →
  let final := start Service.fresh in
  let alone := (connectServer serverName serverConfig (Service.fresh_from i)).2 in
  Map_get serverName (Service.clients final) = Map_get serverName (Service.clients alone)
  ∧ Map_get serverName (Service.transports final)
    = Map_get serverName (Service.transports alone)
  ∧ filter (λ r, reg_server r = serverName) (Service.registered final)
    = Service.registered alone.
Proof.
  intros Hnd Hi. unfold Service.start.
  destruct enabledServers as [|entry rest] eqn:E; [done|]. rewrite <- E in *.
  apply (start_turns_isolated enabledServers
           (Service.logger (Service.connecting_to (length enabledServers)) Service.fresh)
           i serverName serverConfig); try done.
  by apply NoDup_fst_filter.
Qed.

End ServiceFacts.

(** Every registered tool belongs to a server that has a client. *)
Definition connected (β : Service.Bridge) : Prop :=
  ∀ r, r ∈ Service.registered β →
       is_Some (Map_get (reg_server r) (Service.clients β)).

(** The process a stdio server is spawned as: the command, the arguments
    and the environment with every placeholder resolved, the environment
    laid over [process.env]. *)
Definition spawned (process_env : gmap string string) (cmd : string)
    (serverConfig : ServerConfig) : Transport :=
  Stdio (resolveEnvVars process_env cmd)
        (Service.resolveEnvInArray process_env (default [] (args serverConfig)))
        (list_to_map (Service.resolveEnvInRecord process_env (default [] (env serverConfig)))
         ∪ process_env).

Definition not_connected (serverName : string) : ToolResult :=
  {| content := JArray [text_item ("Error: MCP server '" +:+ serverName
                                   +:+ "' is not connected")];
     isError := true |}.

Section ServiceProperties.

Context (process_env : gmap string string) (servers : list (string * ServerConfig))
  (optionalTools : bool) (new_URL : string → completion string)
  (connect : Client → Transport → completion ())
  (listTools : Client → completion (option (list CachedTool)))
  (close : Client → completion ())
  (JSON_stringify : json → string)
  (callTool : Client → string → json → completion json).

Abbreviation connectServer :=
  (Service.connectServer process_env optionalTools new_URL connect listTools).
Abbreviation start_turn :=
  (Service.start_turn process_env optionalTools new_URL connect listTools).
Abbreviation start :=
  (Service.start process_env servers optionalTools new_URL connect listTools).
Abbreviation stop := (Service.stop close).
Abbreviation enabledServers := (Service.enabledServers servers).
Abbreviation tool_execute := (Service.tool_execute JSON_stringify callTool).

(** X16: [start] keeps the servers apart.  What it leaves behind for an
    enabled server (its client, its transport, its registered tools) is
    what [connectServer] alone leaves behind for that server, whatever
    happened to the servers before and after it in the loop. *)
Theorem start_isolates_failures i serverName serverConfig :
  NoDup servers.*1 → enabledServers !! i = Some (serverName, serverConfig) →
  let final := start Service.fresh in
  let alone := (connectServer serverName serverConfig (Service.fresh_from i)).2 in
  Map_get serverName (Service.clients final) = Map_get serverName (Service.clients alone)
  ∧ Map_get serverName (Service.transports final)
    = Map_get serverName (Service.transports alone)
  ∧ filter (λ r, reg_server r = serverName) (Service.registered final)
    = Service.registered alone.
Proof. apply start_isolated. Qed.

Lemma start_turn_connected β entry : connected β → connected (start_turn β entry).
Proof.
  intros Hcon.
  destruct (connectServer_frame process_env optionalTools new_URL connect listTools
              entry.1 entry.2 β) as (_ & _ & _ & _ & Hgrow & new & Hreg & Hnew & Hset).
  assert (Hcon' : connected (connectServer entry.1 entry.2 β).2).
  { intros r. rewrite Hreg, elem_of_app. intros [Hr|Hr].
    - by apply Hgrow, Hcon.
    - rewrite (Hnew r Hr), Hset; [eauto|]. intros ->. by apply elem_of_nil in Hr. }
  unfold Service.start_turn.
  by destruct (connectServer entry.1 entry.2 β) as [[[]|err] β'].
Qed.

Lemma start_turns_connected l : ∀ β, connected β → connected (foldl start_turn β l).
Proof.
  induction l as [|e l IH]; intros β Hcon; [done|].
  simpl. by apply IH, start_turn_connected.
Qed.

Lemma start_connected β : connected β → connected (start β).
Proof.
  intros Hcon. unfold Service.start.
  destruct enabledServers as [|entry rest]; [done|].
  by apply start_turns_connected.
Qed.

Lemma tool_execute_connected β r client params :
  Map_get (reg_server r) (Service.clients β) = Some client →
  tool_execute β r params
  = try_catch (result ← callTool client (reg_tool r) params;
               success_result JSON_stringify result)
              (failure_result (reg_server r) (reg_tool r)).
Proof.
  intros Hc. unfold Service.tool_execute, Eager.execute.
  by rewrite Map_get_list_to_map, Hc.
Qed.

(** X17: [start] never registers a tool of a server it has no client
    for: when every registered tool had a client before [start], every
    tool registered after it has one, and its handler goes on to
    [callTool] on that client rather than answer that the server is
    not connected. *)
Theorem start_registered_connected β r params :
  (∀ r', r' ∈ Service.registered β →
         is_Some (Map_get (reg_server r') (Service.clients β))) →
  r ∈ Service.registered (start β) →
  ∃ client,
    Map_get (reg_server r) (Service.clients (start β)) = Some client
    ∧ tool_execute (start β) r params
      = try_catch (result ← callTool client (reg_tool r) params;
                   success_result JSON_stringify result)
                  (failure_result (reg_server r) (reg_tool r)).
Proof.
  intros Hcon Hr. destruct (start_connected β Hcon r Hr) as [client Hc].
  exists client. split; [done|]. by apply tool_execute_connected.
Qed.

Lemma stop_clients_loop l : ∀ β,
  let β' := foldl (Service.stop_client close) β l in
  Service.closed_clients β' = Service.closed_clients β ++ l.*2
  ∧ Service.closed_transports β' = Service.closed_transports β
  ∧ Service.registered β' = Service.registered β
  ∧ Service.built β' = Service.built β.
Proof.
  induction l as [|[name client] l IH]; intros β; cbv zeta.
  - by rewrite app_nil_r.
  - simpl foldl. destruct (IH (Service.stop_client close β (name, client)))
      as (-> & -> & -> & ->).
    unfold Service.stop_client. simpl.
    destruct (close client) as [[]|err]; simpl; by rewrite <- app_assoc.
Qed.

Lemma stop_transports_loop l : ∀ β,
  let β' := foldl Service.stop_transport β l in
  Service.closed_clients β' = Service.closed_clients β
  ∧ Service.closed_transports β' = Service.closed_transports β ++ l.*2
  ∧ Service.registered β' = Service.registered β
  ∧ Service.built β' = Service.built β.
Proof.
  induction l as [|[name transport] l IH]; intros β; cbv zeta.
  - by rewrite app_nil_r.
  - simpl foldl. destruct (IH (Service.stop_transport β (name, transport)))
      as (-> & -> & -> & ->).
    simpl. by rewrite <- app_assoc.
Qed.

Lemma stop_closed β :
  Service.closed_clients (stop β) = Service.closed_clients β ++ (Service.clients β).*2
  ∧ Service.closed_transports (stop β)
    = Service.closed_transports β ++ (Service.transports β).*2
  ∧ Service.registered (stop β) = Service.registered β.
Proof.
  unfold Service.stop. simpl.
  destruct (stop_transports_loop (Service.transports β)
              (foldl (Service.stop_client close) β (Service.clients β)))
    as (-> & -> & -> & _).
  by destruct (stop_clients_loop (Service.clients β) β) as (-> & -> & -> & _).
Qed.

(** X18: [stop] calls [close()] on every client and on every transport
    in the two maps, in the order of the maps and whatever [close()]
    throws, and empties both maps.  It unregisters nothing: every tool
    stays registered, and from then on answers that its server is not
    connected. *)
Theorem stop_closes_everything β :
  Service.clients (stop β) = []
  ∧ Service.transports (stop β) = []
  ∧ Service.closed_clients (stop β) = Service.closed_clients β ++ (Service.clients β).*2
  ∧ Service.closed_transports (stop β)
    = Service.closed_transports β ++ (Service.transports β).*2
  ∧ Service.registered (stop β) = Service.registered β
  ∧ ∀ r params, tool_execute (stop β) r params = Return (not_connected (reg_server r)).
Proof.
  destruct (stop_closed β) as (Hc & Ht & Hr). split_and!; done.
Qed.

Lemma connectServer_stdio serverName serverConfig cmd β :
  truthy (command serverConfig) = Some cmd →
  Map_get serverName (Service.transports (connectServer serverName serverConfig β).2)
  = Some (spawned process_env cmd serverConfig).
Proof.
  intros Hcmd. unfold Service.connectServer, Service.connect_and_register, spawned.
  cbv zeta. rewrite Hcmd.
  destruct (args serverConfig), (env serverConfig); simpl;
    repeat case_match; simpl; apply Map_get_set_eq.
Qed.

Lemma connectServer_fails_unconnected serverName serverConfig i err :
  (connectServer serverName serverConfig (Service.fresh_from i)).1 = Throw err →
  Service.registered (connectServer serverName serverConfig (Service.fresh_from i)).2 = [].
Proof.
  unfold Service.connectServer, Service.connect_and_register. cbv zeta.
  by repeat case_match.
Qed.

(** X19: the transport of a stdio server is stored before
    [client.connect] is awaited, so [stop] after [start] closes the
    transport of every enabled server with a [command], also of one
    whose connection failed and that has no tool registered. *)
Theorem stop_closes_stdio_transports i serverName serverConfig cmd :
  NoDup servers.*1 → enabledServers !! i = Some (serverName, serverConfig) →
  truthy (command serverConfig) = Some cmd →
  spawned process_env cmd serverConfig
    ∈ Service.closed_transports (stop (start Service.fresh))
  ∧ ∀ err, (connectServer serverName serverConfig (Service.fresh_from i)).1 = Throw err →
           filter (λ r, reg_server r = serverName)
             (Service.registered (stop (start Service.fresh))) = [].
Proof.
  intros Hnd Hi Hcmd.
  destruct (start_isolated process_env servers optionalTools new_URL connect listTools
              i serverName serverConfig Hnd Hi) as (_ & Ht & Hr).
  destruct (stop_closed (start Service.fresh)) as (_ & -> & ->). split.
  - pose proof (connectServer_stdio serverName serverConfig cmd (Service.fresh_from i) Hcmd)
      as Hset.
    rewrite <- Ht in Hset. apply Map_get_elem_of in Hset. apply elem_of_app. right.
    apply list_elem_of_fmap. by eexists (_, _).
  - intros err Herr. rewrite Hr. by eapply connectServer_fails_unconnected.
Qed.

End ServiceProperties.

(** A configuration with a server that names no transport, a stdio
    server and a disabled one. *)
Definition bridge_servers : list (string * ServerConfig) :=
  [("broken", empty_config); ("todo", todo_config None);
   ("off", {| command := Some "never"; args := None; env := None; url := None;
              headers := None; enabled := Some false; toolPrefix := None |})].

Definition lists_ping (client : Client) : completion (option (list CachedTool)) :=
  Return (Some [ping_tool]).

Definition connects (client : Client) (transport : Transport) : completion () :=
  Return ().

Definition spawn_fails (client : Client) (transport : Transport) : completion () :=
  Throw spawn_error.

Definition connects_close (client : Client) : completion () := Return ().

Definition started : Service.Bridge :=
  Service.start sample_env bridge_servers false Return connects lists_ping Service.fresh.

Example started_state :
  Service.clients started = [("todo", 1)]
  ∧ reg_name <$> Service.registered started = ["todo_ping"]
  ∧ Service.logged started
    = [Service.connecting_to 2;
       Service.failed_to_connect "broken"
         "Error: Server broken: must specify either 'command' or 'url'";
       Service.discovered "todo" 1].
Proof. vm_compute. done. Qed.

Lemma start_isolates_failures_witness :
  let final := started in
  let alone := (Service.connectServer sample_env false Return connects lists_ping
                  "todo" (todo_config None) (Service.fresh_from 1)).2 in
  Map_get "todo" (Service.clients final) = Map_get "todo" (Service.clients alone)
  ∧ Map_get "todo" (Service.transports final) = Map_get "todo" (Service.transports alone)
  ∧ filter (λ r, reg_server r = "todo") (Service.registered final)
    = Service.registered alone.
Proof.
  apply (start_isolates_failures sample_env bridge_servers false Return connects
           lists_ping 1 "todo" (todo_config None)).
  - apply (bool_decide_unpack _). vm_compute. exact I.
  - reflexivity.
Defined.

Lemma start_registered_connected_witness :
  ∃ client,
    Map_get "todo" (Service.clients started) = Some client
    ∧ Service.tool_execute (λ _, "{}") (λ _ _ _, Return JNull) started
        (Eager.register_tool "todo" true false ping_tool) JNull
      = try_catch (result ← Return JNull; success_result (λ _, "{}") result)
                  (failure_result "todo" "ping").
Proof.
  apply (start_registered_connected sample_env bridge_servers false Return connects
           lists_ping (λ _, "{}") (λ _ _ _, Return JNull) Service.fresh
           (Eager.register_tool "todo" true false ping_tool) JNull).
  - intros r' Hr'. by apply elem_of_nil in Hr'.
  - apply list_elem_of_In. vm_compute. by left.
Defined.

Lemma stop_closes_stdio_transports_witness :
  spawned sample_env "ai-todo" (todo_config None)
    ∈ Service.closed_transports
        (Service.stop connects_close
           (Service.start sample_env bridge_servers false Return spawn_fails lists_ping
              Service.fresh))
  ∧ ∀ err,
      (Service.connectServer sample_env false Return spawn_fails lists_ping
         "todo" (todo_config None) (Service.fresh_from 1)).1 = Throw err →
      filter (λ r, reg_server r = "todo")
        (Service.registered
           (Service.stop connects_close
              (Service.start sample_env bridge_servers false Return spawn_fails lists_ping
                 Service.fresh))) = [].
Proof.
  apply (stop_closes_stdio_transports sample_env bridge_servers false Return spawn_fails
           lists_ping connects_close 1 "todo" (todo_config None) "ai-todo").
  - apply (bool_decide_unpack _). vm_compute. exact I.
  - reflexivity.
  - reflexivity.
Defined.

(** ** The discovery script

    [discover.ts] connects to every enabled server once, lists its tools
    and writes the cache file that [loadCache] reads.  How the script
    finds its configuration and what it prints are left out, and writing
    the file is taken to succeed: the model starts from
    [Object.entries(servers)] and ends with the exit code or the file
    written. *)

Module Discover.

(** [cache.servers] as filled so far, and the servers on whose client
    and transport [close()] has been called. *)
Record Run := {
  entries : list CacheEntry;
  closed_clients : list string;
  closed_transports : list Transport
}.

Definition begin : Run :=
  {| entries := []; closed_clients := []; closed_transports := [] |}.

Inductive Ended :=
| exit (code : nat)
| written (file : string).

(** The value of a [CachedTool], of a [CacheEntry] and of [cache] as
    [JSON.stringify] sees them: a member that is [undefined] is not
    written. *)
Definition defined_member (k : string) (v : option json) : list (string * json) :=
  match v with
  | Some v => [(k, v)]
  | None => []
  end.

Definition tool_value (t : CachedTool) : json :=
  JObject (("name", JString (name t))
           :: defined_member "description" (JString <$> description t)
           ++ defined_member "inputSchema" (inputSchema t)).

Definition entry_value (e : CacheEntry) : json :=
  JObject [("server", JString (server e));
           ("tools", JArray (tool_value <$> tools e));
           ("discoveredAt", JString (discoveredAt e))].

Definition cache_value (servers : list CacheEntry) : json :=
  JObject [("version", JNumber 1); ("servers", JArray (entry_value <$> servers))].

Section Discover.

(** [process.env]; how the awaited [client.connect(transport)] and
    [client.listTools()] (with its [tools] member) end for the client of
    a server; what [new Date().toISOString()] gives when its tools have
    been listed; [JSON.stringify(cache, null, 2)]. *)
Variable process_env : gmap string string.
Variable connect : string → Transport → completion ().
Variable listTools : string → completion (option (list CachedTool)).
Variable toISOString : string → string.
Variable JSON_stringify : json → string.

Definition discoverServer (serverName : string) (config : ServerConfig) (ρ : Run)
  : completion CacheEntry * Run :=
  match truthy (command config) with
  | None =>
      (Throw (Error ("Server " +:+ serverName
                     +:+ ": only stdio servers supported for discovery")), ρ)
  | Some cmd =>
      let resolvedArgs := map (resolveEnvVars process_env) (default [] (args config)) in
      let resolvedEnv := match env config with
                         | Some e => map (λ kv, (kv.1, resolveEnvVars process_env kv.2)) e
                         | None => []
                         end in
      let transport := Stdio (resolveEnvVars process_env cmd) resolvedArgs
                             (list_to_map resolvedEnv ∪ process_env) in
      (_ ← connect serverName transport;
       result ← listTools serverName;
       Return {| server := serverName; tools := default [] result;
                 discoveredAt := toISOString serverName |},
       {| entries := entries ρ;
          closed_clients := closed_clients ρ ++ [serverName];
          closed_transports := closed_transports ρ ++ [transport] |})
  end.

(** One turn of the loop of [main]. *)
Definition main_turn (ρ : Run) (entry : string * ServerConfig) : Run :=
  match discoverServer entry.1 entry.2 ρ with
  | (Return e, ρ') =>
      {| entries := entries ρ' ++ [e]; closed_clients := closed_clients ρ';
         closed_transports := closed_transports ρ' |}
  | (Throw _, ρ') => ρ'
  end.

Definition enabledServers (servers : list (string * ServerConfig))
  : list (string * ServerConfig) :=
  filter (λ entry, enabled entry.2 ≠ Some false) servers.

Definition main (servers : list (string * ServerConfig)) : Ended * Run :=
  match enabledServers servers with
  | [] => (exit 1, begin)
  | _ =>
      let ρ := foldl main_turn begin (enabledServers servers) in
      (written (JSON_stringify (cache_value (entries ρ)) +:+ String "010" EmptyString), ρ)
  end.

End Discover.

End Discover.

(** A tool as the interface [CachedTool] declares it: its [inputSchema],
    when there is one, is an object and so not [null]. *)
Definition declared_tool (t : CachedTool) : Prop := inputSchema t ≠ Some JNull.

Definition declared_entry (e : CacheEntry) : Prop := Forall declared_tool (tools e).

Lemma read_tool_value t : declared_tool t → Cached.read_tool (Discover.tool_value t) = Some t.
Proof.
  destruct t as [n [d|] [schema|]]; unfold declared_tool; simpl; intros Hs;
    try done; by destruct schema.
Qed.

Lemma mapM_cons_Some {A B} (f : A → option B) x l y k :
  f x = Some y → mapM f l = Some k → mapM f (x :: l) = Some (y :: k).
Proof. intros Hx Hl. simpl. by rewrite Hx, Hl. Qed.

Lemma read_tools_values ts :
  Forall declared_tool ts → mapM Cached.read_tool (Discover.tool_value <$> ts) = Some ts.
Proof.
  induction 1 as [|t ts Ht _ IH]; [done|].
  rewrite fmap_cons. by apply mapM_cons_Some; [apply read_tool_value|].
Qed.

Lemma read_entry_value e :
  declared_entry e → Cached.read_entry (Discover.entry_value e) = Some e.
Proof.
  intros He. destruct e as [s ts d]. simpl.
  by rewrite (read_tools_values ts He).
Qed.

Lemma read_entries_values entries :
  Forall declared_entry entries →
  mapM Cached.read_entry (Discover.entry_value <$> entries) = Some entries.
Proof.
  induction 1 as [|e entries He _ IH]; [done|].
  rewrite fmap_cons. by apply mapM_cons_Some; [apply read_entry_value|].
Qed.

(** X20: the script writes what the plugin reads.  The value that
    [discover.ts] serialises passes the two checks of [loadCache], and
    the loop of [register] finds in it the entries of the script: server
    names, tools with name, description and schema, in their order. *)
Theorem cache_value_read_back entries :
  Forall declared_entry entries →
  version_tag (Discover.cache_value entries) = Some (JNumber 1)
  ∧ servers_field (Discover.cache_value entries)
    = Some (JArray (Discover.entry_value <$> entries))
  ∧ Cached.cache_servers (Discover.cache_value entries) = Some entries.
Proof.
  intros He. split_and!; [done | done |]. simpl. by apply read_entries_values.
Qed.

Definition described_tool : CachedTool :=
  {| name := "list_tasks"; description := Some "List the tasks";
     inputSchema := Some (JObject [("type", JString "object")]) |}.

Definition discovered_entry : CacheEntry :=
  {| server := "todo"; tools := [described_tool; ping_tool];
     discoveredAt := "2025-01-01T00:00:00.000Z" |}.

Lemma cache_value_read_back_witness :
  version_tag (Discover.cache_value [discovered_entry]) = Some (JNumber 1)
  ∧ servers_field (Discover.cache_value [discovered_entry])
    = Some (JArray (Discover.entry_value <$> [discovered_entry]))
  ∧ Cached.cache_servers (Discover.cache_value [discovered_entry])
    = Some [discovered_entry].
Proof.
  apply (cache_value_read_back [discovered_entry]).
  repeat constructor; discriminate.
Defined.

(** A schema that is [null] is written as [null] and read back as
    absent, where [register] falls back on the empty object schema. *)
Example null_schema_read_back :
  Cached.read_tool (Discover.tool_value
    {| name := "ping"; description := None; inputSchema := Some JNull |})
  = Some ping_tool.
Proof. reflexivity. Qed.

Section DiscoverProperties.

Context (process_env : gmap string string)
  (connect : string → Transport → completion ())
  (listTools : string → completion (option (list CachedTool)))
  (toISOString : string → string)
  (JSON_stringify : json → string).

Abbreviation discoverServer :=
  (Discover.discoverServer process_env connect listTools toISOString).
Abbreviation main_turn := (Discover.main_turn process_env connect listTools toISOString).
Abbreviation main :=
  (Discover.main process_env connect listTools toISOString JSON_stringify).

(** The entry the script writes for a server: there is one when the
    server has a [command] and both connecting and listing succeed. *)
Definition discovery (serverName : string) (config : ServerConfig) : option CacheEntry :=
  match truthy (command config) with
  | None => None
  | Some cmd =>
      match connect serverName (spawned process_env cmd config), listTools serverName with
      | Return _, Return result =>
          Some {| server := serverName; tools := default [] result;
                  discoveredAt := toISOString serverName |}
      | _, _ => None
      end
  end.

(** The process spawned for a server, when it has a [command]. *)
Definition spawn_of (entry : string * ServerConfig) : option Transport :=
  match truthy (command entry.2) with
  | Some cmd => Some (spawned process_env cmd entry.2)
  | None => None
  end.

Lemma main_turn_discovery ρ entry :
  Discover.entries (main_turn ρ entry)
  = Discover.entries ρ ++ option_list (discovery entry.1 entry.2)
  ∧ Discover.closed_clients (main_turn ρ entry)
    = Discover.closed_clients ρ
      ++ match truthy (command entry.2) with
         | Some _ => [entry.1]
         | None => []
         end
  ∧ Discover.closed_transports (main_turn ρ entry)
    = Discover.closed_transports ρ ++ option_list (spawn_of entry).
Proof.
  unfold Discover.main_turn, Discover.discoverServer, discovery, spawn_of, spawned,
    Service.resolveEnvInArray, Service.resolveEnvInRecord.
  destruct (truthy (command entry.2)) as [cmd|]; simpl; [|by rewrite !app_nil_r].
  destruct (env entry.2); simpl;
    (destruct (connect _ _) as [[]|err]; simpl; [|by rewrite app_nil_r]);
    by destruct (listTools entry.1) as [result|err]; simpl; rewrite ?app_nil_r.
Qed.

Lemma main_turns_discovery l : ∀ ρ,
  Discover.entries (foldl main_turn ρ l)
  = Discover.entries ρ ++ omap (λ entry, discovery entry.1 entry.2) l
  ∧ Discover.closed_clients (foldl main_turn ρ l)
    = Discover.closed_clients ρ
      ++ (filter (λ entry, is_Some (truthy (command entry.2))) l).*1
  ∧ Discover.closed_transports (foldl main_turn ρ l)
    = Discover.closed_transports ρ
      ++ omap spawn_of l.
Proof.
  induction l as [|entry l IH]; intros ρ.
  - simpl. by rewrite !app_nil_r.
  - simpl foldl. destruct (IH (main_turn ρ entry)) as (-> & -> & ->).
    destruct (main_turn_discovery ρ entry) as (-> & -> & ->).
    rewrite <- !app_assoc, filter_cons. simpl omap. unfold spawn_of at 1 3.
    destruct (decide (is_Some (truthy (command entry.2)))) as [[cmd Hcmd]|Hn].
    + rewrite Hcmd. simpl. by destruct (discovery entry.1 entry.2).
    + assert (truthy (command entry.2) = None) as Hcmd.
      { destruct (truthy (command entry.2)); [|done]. destruct Hn. eauto. }
      rewrite Hcmd. simpl. by destruct (discovery entry.1 entry.2).
Qed.

Lemma main_discovery servers :
  Discover.entries (main servers).2
  = omap (λ entry, discovery entry.1 entry.2) (Discover.enabledServers servers)
  ∧ Discover.closed_clients (main servers).2
    = (filter (λ entry, is_Some (truthy (command entry.2)))
         (Discover.enabledServers servers)).*1
  ∧ Discover.closed_transports (main servers).2
    = omap spawn_of (Discover.enabledServers servers).
Proof.
  unfold Discover.main.
  destruct (Discover.enabledServers servers) as [|entry rest] eqn:E; [done|].
  simpl snd. apply (main_turns_discovery (entry :: rest) Discover.begin).
Qed.

Lemma discovery_Some serverName config e :
  discovery serverName config = Some e ↔
  ∃ cmd result,
    truthy (command config) = Some cmd
    ∧ connect serverName (spawned process_env cmd config) = Return ()
    ∧ listTools serverName = Return result
    ∧ e = {| server := serverName; tools := default [] result;
             discoveredAt := toISOString serverName |}.
Proof.
  unfold discovery. split.
  - destruct (truthy (command config)) as [cmd|]; [|done].
    destruct (connect _ _) as [[]|err] eqn:Hc; [|done].
    destruct (listTools serverName) as [result|err] eqn:Hl; [|done].
    intros [= <-]. by exists cmd, result.
  - intros (cmd & result & -> & -> & -> & ->). done.
Qed.

(** X21: the cache holds an entry for exactly the enabled servers that
    have a [command], could be connected to and listed their tools; the
    entry carries the tools as listed.  A server with a [url] only, to
    which the plugin could connect, gets no entry. *)
Theorem main_discovers servers e :
  e ∈ Discover.entries (main servers).2 ↔
  ∃ serverName config cmd result,
    (serverName, config) ∈ servers ∧ enabled config ≠ Some false
    ∧ truthy (command config) = Some cmd
    ∧ connect serverName (spawned process_env cmd config) = Return ()
    ∧ listTools serverName = Return result
    ∧ e = {| server := serverName; tools := default [] result;
             discoveredAt := toISOString serverName |}.
Proof.
  destruct (main_discovery servers) as (-> & _ & _).
  rewrite list_elem_of_omap. split.
  - intros ([serverName config] & [Hen Hin]%list_elem_of_filter & Hd).
    apply discovery_Some in Hd as (cmd & result & Hd). simpl in *.
    by exists serverName, config, cmd, result.
  - intros (serverName & config & cmd & result & Hin & Hen & Hd).
    exists (serverName, config). split.
    + by apply list_elem_of_filter.
    + apply discovery_Some. by exists cmd, result.
Qed.

(** X22: the script closes what it opens.  At the end of [main] the
    client and the transport of every enabled server with a [command]
    have been closed, once each and in the order of the configuration,
    whether the discovery of the server succeeded or failed; for a
    server without [command] nothing was built. *)
Theorem main_closes_every_client servers :
  Discover.closed_clients (main servers).2
  = (filter (λ entry, is_Some (truthy (command entry.2)))
       (Discover.enabledServers servers)).*1
  ∧ Discover.closed_transports (main servers).2
    = omap spawn_of (Discover.enabledServers servers)
  ∧ ∀ e, e ∈ Discover.entries (main servers).2 →
         server e ∈ Discover.closed_clients (main servers).2.
Proof.
  destruct (main_discovery servers) as (He & Hc & Ht). split_and!; [done | done |].
  intros e. rewrite He, Hc, list_elem_of_omap.
  intros ([serverName config] & Hin & Hd).
  apply discovery_Some in Hd as (cmd & result & Hcmd & _ & _ & ->). simpl in *.
  apply list_elem_of_fmap. exists (serverName, config). split; [done|].
  apply list_elem_of_filter. split; [|done]. simpl. eauto.
Qed.



End DiscoverProperties.

(** A run of the script over a configuration with a server that names
    no transport, a stdio server, a disabled server and a server
    reached by [url] only. *)
Definition discover_servers : list (string * ServerConfig) :=
  bridge_servers
  ++ [("remote", {| command := None; args := None; env := None;
                    url := Some "https://example.com/mcp"; headers := None;
                    enabled := None; toolPrefix := None |})].

Definition discover_run : Discover.Ended * Discover.Run :=
  Discover.main sample_env (λ _ _, Return ()) (λ _, Return (Some [ping_tool]))
    (λ _, "2025-01-01T00:00:00.000Z") (λ _, "{}") discover_servers.


Example discover_run_entries :
  Discover.entries discover_run.2
  = [{| server := "todo"; tools := [ping_tool];
        discoveredAt := "2025-01-01T00:00:00.000Z" |}]
  ∧ Discover.closed_clients discover_run.2 = ["todo"].
Proof. vm_compute. done. Qed.

